(** * Hierarchical state machines: a shallow embedding of [State.h]

    The header defines four classes, [Event], [EventHandler], [State] and
    [Hsm].  Objects are handled by pointer throughout, so states are
    referred to by address ([StateRef]) and a nullable [State*] is an
    [option StateRef].

    The code supplied by an application (the virtual methods [entry] and
    [exit], and the member functions bound to event handlers) is a
    parameter of the development, the class [Behaviour].  That code works
    on one shared context object, the external interface [xif], which is
    threaded through every call together with a log of the calls made; it
    tells the machine what to do through the state it returns, and does
    not call back into the machine while a dispatch is under way.

    The settling loops, the delegation to the parent and the draining of
    the queue run for as long as application code and the object graph
    make them; they carry a fuel argument, and [None] means that the fuel
    ran out. *)

From Stdlib Require Import ZArith List Lia Bool PeanoNat.
Import ListNotations.

Set Implicit Arguments.

(** ** Machine integers *)

(** [uint32_t]: an integer in [0, 2^32); a value is brought into range when
    it is converted to the type, which is what a constructor argument of
    that type does. *)
Definition uint32 := Z.

Definition wrap32 (z : Z) : uint32 := (z mod 2 ^ 32)%Z.

Definition in_uint32 (z : Z) : Prop := (0 <= z < 2 ^ 32)%Z.

(** ** Pointers *)

(** Address of a [State] object; the null pointer is [None]. *)
Definition StateRef := nat.

(** A pointer to a member function of [State] that takes an event and
    returns the next state. *)
Definition MemberRef := nat.

(** ** List.h *)

Module List_.

(** Modelled from the spec: [List.h] is not part of the sources.  The spec
    describes the container as ordered and iterable, with append at the end
    and removal by identity.  Items are kept in insertion order;
    [getFirstItem] is the head (null when the list is empty), iteration
    with [getFirstItem]/[getNextItem] visits the items in order, and
    [removeItem] drops the first item identical to its argument. *)
Definition t (T : Type) := list T.

(** Modelled from the spec: a new list is empty. *)
Definition new {T : Type} : t T := [].

(** Modelled from the spec: [addItem] appends at the end. *)
Definition addItem {T : Type} (l : t T) (item : T) : t T := l ++ [item].

(** Modelled from the spec: the head of the list, null when it is empty. *)
Definition getFirstItem {T : Type} (l : t T) : option T :=
  match l with
  | [] => None
  | x :: _ => Some x
  end.

(** Modelled from the spec: removal by identity, [same] being the
    comparison of pointers; the first identical item goes. *)
Fixpoint removeItem {T : Type} (same : T -> T -> bool) (l : t T) (item : T)
  : t T :=
  match l with
  | [] => []
  | x :: rest => if same x item then rest else x :: removeItem same rest item
  end.

End List_.

(** ** Event *)

Module Event.

(** An [Event] object.  Events are passed by pointer and the queue removes
    them by identity, so the object carries the address it lives at next to
    its only field, [_sig]. *)
Record t := mk { addr : nat; _sig : uint32 }.

Definition new (at_ : nat) (sig : Z) : t := {| addr := at_; _sig := wrap32 sig |}.

Definition getSig (e : t) : uint32 := _sig e.

Definition setSig (e : t) (sig : Z) : t := {| addr := addr e; _sig := wrap32 sig |}.

(** Pointer identity. *)
Definition same (a b : t) : bool := Nat.eqb (addr a) (addr b).

End Event.

(** ** Application code *)

(** What the application supplies: the virtual methods of each state and
    the member functions that handlers are bound to.  [member mptr obj e]
    is the call [(obj->*mptr)(e)].  [U] is the type of the shared external
    interface object. *)
Class Behaviour (U : Type) := {
  entry : StateRef -> U -> option StateRef * U;
  exit : StateRef -> U -> U;
  member : MemberRef -> StateRef -> Event.t -> U -> option StateRef * U
}.

(** Calls that reach application code, and events taken from the queue, in
    the order they happen. *)
Inductive Call :=
| Entered (s : StateRef)
| Exited (s : StateRef)
| Invoked (obj : StateRef) (mptr : MemberRef) (e : Event.t)
| Dispatched (s : StateRef) (e : Event.t).

Record World (U : Type) := mkWorld { xif : U; calls : list Call }.

Section Calls.
Context {U : Type} {B : Behaviour U}.

Definition call_entry (s : StateRef) (w : World U) : option StateRef * World U :=
  let (next, u) := entry s (xif w) in
  (next, {| xif := u; calls := calls w ++ [Entered s] |}).

Definition call_exit (s : StateRef) (w : World U) : World U :=
  {| xif := exit s (xif w); calls := calls w ++ [Exited s] |}.

Definition call_member (obj : StateRef) (mptr : MemberRef) (e : Event.t)
           (w : World U) : option StateRef * World U :=
  let (next, u) := member mptr obj e (xif w) in
  (next, {| xif := u; calls := calls w ++ [Invoked obj mptr e] |}).

Definition note (c : Call) (w : World U) : World U :=
  {| xif := xif w; calls := calls w ++ [c] |}.
End Calls.

(** ** EventHandler *)

Module EventHandler.

(** Modelled from the spec: [FunctionPointer.h] is not part of the sources.
    A [FunctionPointerArg1<S*, Event*>] holds at most one bound pair of an
    object and a member function; calling it invokes the bound transition,
    and an unbound one returns null. *)
Definition FunctionPointer := option (StateRef * MemberRef).

Record t := mk { _sig : uint32; _handler : FunctionPointer }.

Definition new : t := {| _sig := 0%Z; _handler := None |}.

Definition attach (h : t) (signal : Z) (obj : StateRef) (mptr : MemberRef) : t :=
  {| _sig := wrap32 signal; _handler := Some (obj, mptr) |}.

Definition match_ (h : t) (e : Event.t) : bool :=
  if negb (Z.land (Event.getSig e) (_sig h) =? 0)%Z then true else false.

Section Dispatch.
Context {U : Type} {B : Behaviour U}.

Definition dispatch (h : t) (e : Event.t) (w : World U)
  : option StateRef * World U :=
  match _handler h with
  | Some (obj, mptr) => call_member obj mptr e w
  | None => (None, w)
  end.
End Dispatch.

End EventHandler.

(** ** State *)

Module State.

(** The fields of a [State] object.  [_xif] points to the shared context,
    which is the [xif] of the world. *)
Record t := mk { _handlers : List_.t EventHandler.t; _parent : option StateRef }.

Definition new (parent : option StateRef) : t :=
  {| _handlers := List_.new; _parent := parent |}.

Definition attach (st : t) (signal : Z) (tptr : StateRef) (mptr : MemberRef) : t :=
  let evh := EventHandler.attach EventHandler.new signal tptr mptr in
  {| _handlers := List_.addItem (_handlers st) evh; _parent := _parent st |}.

(** The objects: every non-null [State*] points to a [State]. *)
Definition Heap := StateRef -> t.

Definition store (hp : Heap) (s : StateRef) (st : t) : Heap :=
  fun x => if Nat.eqb x s then st else hp x.

(** [s->attach(signal, tptr, mptr)] on the object at [s]. *)
Definition attach_at (hp : Heap) (s : StateRef) (signal : Z) (tptr : StateRef)
           (mptr : MemberRef) : Heap :=
  store hp s (attach (hp s) signal tptr mptr).

(** The handler search of [dispatch]: from [getFirstHandler], skip with
    [getNextHandler] while the handler does not match; the first match is
    the handler that is dispatched to. *)
Fixpoint search (hs : List_.t EventHandler.t) (e : Event.t)
  : option EventHandler.t :=
  match hs with
  | [] => None
  | handler :: rest =>
      if negb (EventHandler.match_ handler e) then search rest e
      else Some handler
  end.

Section Dispatch.
Context {U : Type} {B : Behaviour U}.

(** [while(next && next != st){ st->exit(); st = next; next = st->entry(); }] *)
Fixpoint settle (fuel : nat) (st : StateRef) (next : option StateRef)
         (w : World U) : option (StateRef * World U) :=
  match next with
  | None => Some (st, w)
  | Some n =>
      if Nat.eqb n st then Some (st, w)
      else
        match fuel with
        | O => None
        | S fuel' =>
            let w1 := call_exit st w in
            let (next', w2) := call_entry n w1 in
            settle fuel' n next' w2
        end
  end.

(** [this->dispatch(e)] for the object at [this]; the result is the
    returned pointer. *)
Fixpoint dispatch (fuel : nat) (hp : Heap) (this : StateRef)
         (e : option Event.t) (w : World U)
  : option (option StateRef * World U) :=
  match fuel with
  | O => None
  | S fuel' =>
      match e with
      | None =>
          let (next, w1) := call_entry this w in
          match settle fuel' this next w1 with
          | Some (st, w2) => Some (Some st, w2)
          | None => None
          end
      | Some ev =>
          match search (_handlers (hp this)) ev with
          | Some handler => Some (EventHandler.dispatch handler ev w)
          | None =>
              match _parent (hp this) with
              | Some parent => dispatch fuel' hp parent (Some ev) w
              | None => Some (None, w)
              end
          end
      end
  end.
End Dispatch.

End State.

(** ** Hsm *)

Module Hsm.

(** An [Hsm] object together with the objects it works on.  The [State]
    part of the machine is the object at [this] in [heap].  The mutex only
    brackets the list updates and is not represented. *)
Record t (U : Type) := mk {
  this : StateRef;
  heap : State.Heap;
  _states : List_.t StateRef;
  _events : List_.t Event.t;
  _state : StateRef;
  world : World U
}.

Arguments mk {U}.

Section Ops.
Context {U : Type} {B : Behaviour U}.

(** The constructor, for an object placed at [at_]. *)
Definition new (at_ : StateRef) (parent : option StateRef) (hp : State.Heap)
           (w : World U) : t U :=
  {| this := at_;
     heap := State.store hp at_ (State.new parent);
     _states := List_.new;
     _events := List_.new;
     _state := at_;
     world := w |}.

Definition attachState (m : t U) (st : StateRef) : t U :=
  mk (this m) (heap m) (List_.addItem (_states m) st) (_events m) (_state m)
     (world m).

Definition raiseEvent (m : t U) (e : Event.t) : t U :=
  mk (this m) (heap m) (_states m) (List_.addItem (_events m) e) (_state m)
     (world m).

(** [s->attach(signal, tptr, mptr)] for a state [s] of the machine. *)
Definition attach (m : t U) (s : StateRef) (signal : Z) (tptr : StateRef)
           (mptr : MemberRef) : t U :=
  mk (this m) (State.attach_at (heap m) s signal tptr mptr) (_states m)
     (_events m) (_state m) (world m).

Definition init (fuel : nat) (m : t U) : option (StateRef * t U) :=
  match State.dispatch fuel (heap m) (this m) None (world m) with
  | None => None
  | Some (next, w) =>
      let st := match next with Some n => n | None => this m end in
      Some (st, mk (this m) (heap m) (_states m) (_events m) st w)
  end.

(** One turn of the loop of [dispatchEvents] up to the removal of the
    event: dispatch [ev] to the active state, then exit and enter until
    the transition has settled.  The inner loop is the loop of
    [State.dispatch] run on [_state], which holds the settled state when
    the loop ends. *)
Definition handle (fuel : nat) (m : t U) (ev : Event.t) : option (t U) :=
  let w0 := note (Dispatched (_state m) ev) (world m) in
  match State.dispatch fuel (heap m) (_state m) (Some ev) w0 with
  | None => None
  | Some (next, w1) =>
      match State.settle fuel (_state m) next w1 with
      | None => None
      | Some (st, w2) =>
          Some (mk (this m) (heap m) (_states m) (_events m) st w2)
      end
  end.

Fixpoint dispatchEvents (fuel : nat) (m : t U) : option (StateRef * t U) :=
  match List_.getFirstItem (_events m) with
  | None => Some (_state m, m)
  | Some ev =>
      match fuel with
      | O => None
      | S fuel' =>
          match handle fuel' m ev with
          | None => None
          | Some m1 =>
              dispatchEvents fuel'
                (mk (this m1) (heap m1) (_states m1)
                    (List_.removeItem Event.same (_events m1) ev)
                    (_state m1) (world m1))
          end
      end
  end.
End Ops.

End Hsm.

(** Splits [H : Hsm.handle fuel m ev = Some m1] into the result of the
    dispatch, [Ed], and the result of the settling loop, [Es]. *)
Ltac split_handle H Ed Es :=
  unfold Hsm.handle in H;
  match type of H with
  | match State.dispatch ?f ?hp ?s ?e ?w with _ => _ end = _ =>
      let next := fresh "next" in
      let w1 := fresh "w1" in
      destruct (State.dispatch f hp s e w) as [[next w1] |] eqn:Ed;
      [| discriminate H];
      match type of H with
      | match State.settle ?f' ?s' ?n' ?w' with _ => _ end = _ =>
          let st := fresh "st" in
          let w2 := fresh "w2" in
          destruct (State.settle f' s' n' w') as [[st w2] |] eqn:Es;
          [| discriminate H]
      end
  end.

(** ** Notions used by the statements *)

Section Notions.
Context {U : Type} {B : Behaviour U}.

(** The entry processing of [dispatch], following the spec's words: invoke
    [entry()]; stop when it returns no result or the same state; otherwise
    call [exit()] on the current state, advance to the next and invoke
    [entry()] on it again.  [entry_chain s w st w'] reads: entry
    processing started on [s] in world [w] settles on [st] in world [w']. *)
Inductive entry_chain : StateRef -> World U -> StateRef -> World U -> Prop :=
| chain_settled : forall s w next w',
    call_entry s w = (next, w') ->
    next = None \/ next = Some s ->
    entry_chain s w s w'
| chain_advance : forall s w n w1 st w',
    call_entry s w = (Some n, w1) ->
    n <> s ->
    entry_chain n (call_exit s w1) st w' ->
    entry_chain s w st w'.

(** The settling loop seen one turn at a time: the current state, the
    pending result of the last [entry()] or handler, and the world. *)
Definition Settling : Type := StateRef * option StateRef * World U.

(** The loop guard [next && next != st]. *)
Definition pending (c : Settling) : bool :=
  match c with
  | (st, Some n, _) => negb (Nat.eqb n st)
  | (_, None, _) => false
  end.

(** The loop body, where the guard holds. *)
Definition turn (c : Settling) : Settling :=
  match c with
  | (st, Some n, w) =>
      if Nat.eqb n st then c
      else
        let (next', w2) := call_entry n (call_exit st w) in
        (n, next', w2)
  | (_, None, _) => c
  end.

(** Every chain of entry-triggered transitions comes to a stop. *)
Definition chains_settle : Prop :=
  forall c : Settling, exists k, pending (Nat.iter k turn c) = false.

(** The events that [dispatchEvents] took from the queue, oldest first. *)
Fixpoint dispatched (cs : list Call) : list Event.t :=
  match cs with
  | [] => []
  | Dispatched _ e :: rest => e :: dispatched rest
  | _ :: rest => dispatched rest
  end.

(** The calls into application code among [cs]. *)
Fixpoint app_calls (cs : list Call) : list Call :=
  match cs with
  | [] => []
  | Dispatched _ _ :: rest => app_calls rest
  | c :: rest => c :: app_calls rest
  end.

(** A registration [attach(signal, tptr, mptr)]. *)
Definition Registration : Type := Z * StateRef * MemberRef.

(** The handler that a registration leaves in the list. *)
Definition handler_of (r : Registration) : EventHandler.t :=
  EventHandler.mk (wrap32 (fst (fst r))) (Some (snd (fst r), snd r)).

Definition attach_all (hp : State.Heap) (s : StateRef) (regs : list Registration)
  : State.Heap :=
  fold_left (fun h r => State.attach_at h s (fst (fst r)) (snd (fst r)) (snd r))
            regs hp.

(** The states that application code can name as the next state. *)
Definition target (r : StateRef) : Prop :=
  (exists s u u', entry s u = (Some r, u')) \/
  (exists mptr obj e u u', member mptr obj e u = (Some r, u')).

(** Every such state is in the registry of [m], or is [m] itself. *)
Definition registered (m : Hsm.t U) : Prop :=
  forall r, target r -> r = Hsm.this m \/ In r (Hsm._states m).

(** The active state is an attached state or the machine itself. *)
Definition active_known (m : Hsm.t U) : Prop :=
  Hsm._state m = Hsm.this m \/ In (Hsm._state m) (Hsm._states m).

(** Configurations reached from a freshly constructed machine by the
    operations of [Hsm] and by [attach] on its states; [ready] is what
    holds whenever the machine is run ([init], [dispatchEvents]). *)
Inductive reachable (ready : Hsm.t U -> Prop) : Hsm.t U -> Prop :=
| reach_new : forall at_ parent hp w,
    reachable ready (Hsm.new at_ parent hp w)
| reach_attach : forall m s signal tptr mptr,
    reachable ready m ->
    reachable ready (Hsm.attach m s signal tptr mptr)
| reach_attachState : forall m st,
    reachable ready m ->
    reachable ready (Hsm.attachState m st)
| reach_raiseEvent : forall m e,
    reachable ready m ->
    reachable ready (Hsm.raiseEvent m e)
| reach_init : forall m fuel st m',
    reachable ready m ->
    ready m ->
    Hsm.init fuel m = Some (st, m') ->
    reachable ready m'
| reach_dispatchEvents : forall m fuel st m',
    reachable ready m ->
    ready m ->
    Hsm.dispatchEvents fuel m = Some (st, m') ->
    reachable ready m'.

(** The events that [dispatchEvents] took from the queue, each with the
    state it was dispatched to, oldest first. *)
Fixpoint dispatched_to (cs : list Call) : list (StateRef * Event.t) :=
  match cs with
  | [] => []
  | Dispatched s e :: rest => (s, e) :: dispatched_to rest
  | _ :: rest => dispatched_to rest
  end.

(** The consumer loop, following the spec's words: for each queued event
    in turn, dispatch it against the current active state; then perform the
    chained exit/entry sequence from the result, which gives the next active
    state.  [served hp st w trail st' w'] reads: starting with active state
    [st] in world [w], the events of [trail] were served in that order, each
    one dispatched to the state paired with it, which is the state active at
    that time, and the machine ends with active state [st'] in world
    [w']. *)
Inductive served (hp : State.Heap)
  : StateRef -> World U -> list (StateRef * Event.t) -> StateRef -> World U -> Prop :=
| served_none : forall st w, served hp st w [] st w
| served_next : forall st w e trail next w1 st1 w2 st' w',
    (exists fuel,
       State.dispatch fuel hp st (Some e) (note (Dispatched st e) w) =
       Some (next, w1)) ->
    (exists fuel, State.settle fuel st next w1 = Some (st1, w2)) ->
    served hp st1 w2 trail st' w' ->
    served hp st w ((st, e) :: trail) st' w'.

(** The states that an [entry()] can return. *)
Definition entry_target (r : StateRef) : Prop :=
  exists s u u', entry s u = (Some r, u').

(** The states that a handler attached to a state of [hp] can return: the
    results of the member functions bound to those handlers. *)
Definition handler_target (hp : State.Heap) (r : StateRef) : Prop :=
  exists s h obj mptr e u u',
    In h (State._handlers (hp s)) /\
    EventHandler._handler h = Some (obj, mptr) /\
    member mptr obj e u = (Some r, u').

(** Every state that an [entry()] or a handler attached in [m] can return
    is in the registry of [m], or is [m] itself. *)
Definition targets_registered (m : Hsm.t U) : Prop :=
  forall r, entry_target r \/ handler_target (Hsm.heap m) r ->
            r = Hsm.this m \/ In r (Hsm._states m).

End Notions.

(** The parent chain of [s] ends within [n] steps. *)
Fixpoint rooted_within (n : nat) (hp : State.Heap) (s : StateRef) : bool :=
  match State._parent (hp s) with
  | None => true
  | Some p =>
      match n with
      | O => false
      | S n' => rooted_within n' hp p
      end
  end.

(** [a] is [s] or one of its ancestors. *)
Inductive ancestor (hp : State.Heap) : StateRef -> StateRef -> Prop :=
| ancestor_self : forall s, ancestor hp s s
| ancestor_parent : forall s p a,
    State._parent (hp s) = Some p ->
    ancestor hp p a ->
    ancestor hp s a.

(** [delegates hp e k s a]: [a] is reached from [s] by [k] steps to the
    parent, and none of the states passed on the way has a handler that
    matches [e]. *)
Inductive delegates (hp : State.Heap) (e : Event.t)
  : nat -> StateRef -> StateRef -> Prop :=
| delegates_here : forall s, delegates hp e 0 s s
| delegates_up : forall k s p a,
    State.search (State._handlers (hp s)) e = None ->
    State._parent (hp s) = Some p ->
    delegates hp e k p a ->
    delegates hp e (S k) s a.

(** No parent chain is cyclic. *)
Definition rooted (hp : State.Heap) : Prop :=
  forall s, exists n, rooted_within n hp s = true.

(** ** Notions for the protocol of [entry()] and [exit()] *)

(** Reads a log as a protocol: [Entered s] is in order when no state is
    entered, and makes [s] the entered state; [Exited s] is in order when
    [s] is the entered state, and leaves none entered.  The result is the
    state entered at the end, or [None] when a call was out of order. *)
Fixpoint lifecycle (cur : option StateRef) (cs : list Call)
  : option (option StateRef) :=
  match cs with
  | [] => Some cur
  | Entered s :: rest =>
      match cur with
      | None => lifecycle (Some s) rest
      | Some _ => None
      end
  | Exited s :: rest =>
      match cur with
      | Some c => if Nat.eqb c s then lifecycle None rest else None
      | None => None
      end
  | _ :: rest => lifecycle cur rest
  end.

Section Service.
Context {U : Type} {B : Behaviour U}.

(** The machine [m] with [q] as its event queue. *)
Definition queue_of (m : Hsm.t U) (q : List_.t Event.t) : Hsm.t U :=
  Hsm.mk (Hsm.this m) (Hsm.heap m) (Hsm._states m) q (Hsm._state m)
         (Hsm.world m).

(** Configurations of a machine in service: [init] was called once, at a
    time when the log showed no state as entered, and since then only
    [attach], [attachState], [raiseEvent] and [dispatchEvents]. *)
Inductive in_service : Hsm.t U -> Prop :=
| service_init : forall m fuel st m',
    lifecycle None (calls (Hsm.world m)) = Some None ->
    Hsm.init fuel m = Some (st, m') ->
    in_service m'
| service_attach : forall m s signal tptr mptr,
    in_service m ->
    in_service (Hsm.attach m s signal tptr mptr)
| service_attachState : forall m st,
    in_service m ->
    in_service (Hsm.attachState m st)
| service_raiseEvent : forall m e,
    in_service m ->
    in_service (Hsm.raiseEvent m e)
| service_dispatchEvents : forall m fuel st m',
    in_service m ->
    Hsm.dispatchEvents fuel m = Some (st, m') ->
    in_service m'.

End Service.

(** ** A machine to run the definitions on *)

Module Demo.

(** A root machine with an idle state and a composite active state whose
    entry descends two levels: entering [ACTIVE] leads to [WARMUP], which
    leads to [RUNNING], which stays.  The shared context counts the calls
    of [entry()]. *)
Definition ROOT : StateRef := 0.
Definition IDLE : StateRef := 1.
Definition ACTIVE : StateRef := 2.
Definition WARMUP : StateRef := 3.
Definition RUNNING : StateRef := 4.

Definition SIG_START : Z := 1.
Definition SIG_STOP : Z := 2.
Definition SIG_UNKNOWN : Z := 4.

Definition onStart : MemberRef := 0.
Definition onStop : MemberRef := 1.

#[export] Instance behaviour : Behaviour nat := {|
  entry := fun s u =>
    (match s with
     | 0 => Some IDLE
     | 2 => Some WARMUP
     | 3 => Some RUNNING
     | 4 => Some RUNNING
     | _ => None
     end, S u);
  exit := fun _ u => u;
  member := fun mptr _ _ u =>
    (match mptr with
     | 0 => Some ACTIVE
     | 1 => Some IDLE
     | _ => None
     end, u)
|}.

Definition objects : State.Heap :=
  fun s =>
    match s with
    | 1 => State.new (Some ROOT)
    | 2 => State.new (Some ROOT)
    | 3 => State.new (Some ACTIVE)
    | 4 => State.new (Some WARMUP)
    | _ => State.new None
    end.

Definition quiet : World nat := {| xif := 0; calls := [] |}.

(** The machine after construction and after the handlers were attached. *)
Definition fresh : Hsm.t nat := Hsm.new ROOT None objects quiet.

Definition wired : Hsm.t nat :=
  Hsm.attach (Hsm.attach fresh IDLE SIG_START IDLE onStart)
             ACTIVE SIG_STOP ACTIVE onStop.

(** The same with every state entered in the registry. *)
Definition listed : Hsm.t nat :=
  fold_left Hsm.attachState [IDLE; ACTIVE; WARMUP; RUNNING] wired.

Definition start : Event.t := Event.new 100 SIG_START.
Definition stop : Event.t := Event.new 101 SIG_STOP.
Definition unknown : Event.t := Event.new 102 SIG_UNKNOWN.
Definition silent : Event.t := Event.new 103 0.

(** [init] on the machine whose registry is still empty. *)
Definition started : Hsm.t nat :=
  match Hsm.init 2 wired with
  | Some (_, m) => m
  | None => wired
  end.

(** The machine with its registry filled, after [init], and then after a
    start event was raised and dispatched. *)
Definition settled : Hsm.t nat :=
  match Hsm.init 2 listed with
  | Some (_, m) => m
  | None => listed
  end.

Definition running : Hsm.t nat :=
  match Hsm.dispatchEvents 5 (Hsm.raiseEvent settled start) with
  | Some (_, m) => m
  | None => settled
  end.

End Demo.

(** Two states whose [entry()] name each other. *)
Module PingPong.

#[export] Instance behaviour : Behaviour unit := {|
  entry := fun s u =>
    (match s with
     | 0 => Some 1
     | 1 => Some 0
     | _ => None
     end, u);
  exit := fun _ u => u;
  member := fun _ _ _ u => (None, u)
|}.

End PingPong.

(** Variations of the demo machine. *)
Module DemoRuns.

Import Demo.

(** The wired machine with a handler for every signal on the root. *)
Definition catching : Hsm.t nat :=
  Hsm.attach Demo.wired Demo.ROOT (2 ^ 32 - 1) Demo.ROOT Demo.onStop.

(** The settled machine with a handler on the idle state that answers a
    stop event with the idle state itself. *)
Definition steady : Hsm.t nat :=
  Hsm.attach Demo.settled Demo.IDLE Demo.SIG_STOP Demo.IDLE Demo.onStop.

(** The outcome of draining a start and a stop event raised on the settled
    machine. *)
Definition stopped : StateRef * Hsm.t nat :=
  match Hsm.dispatchEvents 5
          (Hsm.raiseEvent (Hsm.raiseEvent Demo.settled Demo.start) Demo.stop) with
  | Some r => r
  | None => (Demo.ROOT, Demo.settled)
  end.

(** The running machine after [init] was called on it a second time. *)
Definition restarted : Hsm.t nat :=
  match Hsm.init 2 Demo.running with
  | Some (_, m) => m
  | None => Demo.running
  end.

(** The outcome of draining a start, an unknown and a stop event raised
    on the settled machine. *)
Definition toured : StateRef * Hsm.t nat :=
  match Hsm.dispatchEvents 6
          (fold_left Hsm.raiseEvent [Demo.start; Demo.unknown; Demo.stop]
                     Demo.settled) with
  | Some r => r
  | None => (Demo.ROOT, Demo.settled)
  end.

(** A machine without handlers whose states all have an [entry()] that
    returns null is run with [Quiet.behaviour] below. *)
Definition bare : Hsm.t unit :=
  Hsm.new 0 None (fun _ => State.new None) {| xif := tt; calls := [] |}.

End DemoRuns.

(** Application code in which no [entry()] names a next state, while a
    member function that no handler is bound to names state 9. *)
Module Quiet.

#[export] Instance behaviour : Behaviour unit := {|
  entry := fun _ u => (None, u);
  exit := fun _ u => u;
  member := fun _ _ _ u => (Some 9, u)
|}.

(** The bare machine after [init]. *)
Definition started : Hsm.t unit :=
  match Hsm.init 1 DemoRuns.bare with
  | Some (_, m) => m
  | None => DemoRuns.bare
  end.

End Quiet.

Unset Implicit Arguments.

(** * Properties *)

(** ** Machine integers and lists *)

Lemma wrap32_in_range : forall z, in_uint32 (wrap32 z).
Proof.
  intro z. unfold in_uint32, wrap32. apply Z.mod_pos_bound. reflexivity.
Qed.

Lemma wrap32_id : forall z, in_uint32 z -> wrap32 z = z.
Proof.
  intros z Hz. unfold wrap32. apply Z.mod_small. exact Hz.
Qed.

Lemma nonzero_has_bit : forall z : Z,
  z <> 0%Z -> exists i, (0 <= i)%Z /\ Z.testbit z i = true.
Proof.
  intros z Hz.
  destruct (Z.lt_trichotomy z 0) as [Hneg | [H0 | Hpos]].
  - exists (Z.succ (Z.log2 (Z.pred (- z)))). split.
    + pose proof (Z.log2_nonneg (Z.pred (- z))). lia.
    + apply Z.bits_above_log2_neg; lia.
  - contradiction.
  - exists (Z.log2 z). split.
    + apply Z.log2_nonneg.
    + apply Z.bit_log2. exact Hpos.
Qed.

Lemma removeItem_first : forall (T : Type) (same : T -> T -> bool) x (l : list T),
  same x x = true -> List_.removeItem same (x :: l) x = l.
Proof.
  intros T same x l Hx. simpl. rewrite Hx. reflexivity.
Qed.

Lemma same_refl : forall e, Event.same e e = true.
Proof.
  intro e. unfold Event.same. apply Nat.eqb_refl.
Qed.

(** ** EventHandler *)

Lemma match_true_iff : forall h e,
  EventHandler.match_ h e = true <->
  Z.land (Event.getSig e) (EventHandler._sig h) <> 0%Z.
Proof.
  intros h e. unfold EventHandler.match_.
  destruct (Z.eqb_spec (Z.land (Event.getSig e) (EventHandler._sig h)) 0) as [E | E];
    simpl; split; intro H; congruence.
Qed.

Lemma match_false_iff : forall h e,
  EventHandler.match_ h e = false <->
  Z.land (Event.getSig e) (EventHandler._sig h) = 0%Z.
Proof.
  intros h e. unfold EventHandler.match_.
  destruct (Z.eqb_spec (Z.land (Event.getSig e) (EventHandler._sig h)) 0) as [E | E];
    simpl; split; intro H; congruence.
Qed.

(** C3: [match(e)] is true exactly when the bitwise AND of the event's
    signal and the handler's mask is not zero, that is, exactly when the
    two share a bit; the mask is the one registered by [attach].  Matching
    is intersection and not equality. *)
Theorem match_is_mask_intersection : forall (h : EventHandler.t) (e : Event.t),
  (EventHandler.match_ h e = true <->
   Z.land (Event.getSig e) (EventHandler._sig h) <> 0%Z) /\
  (EventHandler.match_ h e = true <->
   exists i, (0 <= i)%Z /\ Z.testbit (Event.getSig e) i = true /\
             Z.testbit (EventHandler._sig h) i = true) /\
  (forall M obj mptr,
     EventHandler._sig (EventHandler.attach h M obj mptr) = wrap32 M) /\
  (exists h' e', EventHandler.match_ h' e' = true /\
                 Event.getSig e' <> EventHandler._sig h').
Proof.
  intros h e. split; [apply match_true_iff | split; [| split]].
  - rewrite match_true_iff. split.
    + intro Hnz. destruct (nonzero_has_bit _ Hnz) as [i [Hi Hb]].
      exists i. rewrite Z.land_spec in Hb.
      apply andb_true_iff in Hb. tauto.
    + intros [i [Hi [Hs Hm]]] Hz.
      assert (Hb : Z.testbit (Z.land (Event.getSig e) (EventHandler._sig h)) i = true).
      { rewrite Z.land_spec, Hs, Hm. reflexivity. }
      rewrite Hz, Z.bits_0 in Hb. discriminate.
  - reflexivity.
  - exists (EventHandler.attach EventHandler.new 6 0 0), (Event.new 0 2).
    split; [reflexivity | discriminate].
Qed.

(** ** State: the handler search *)

Lemma search_none_iff : forall hs e,
  State.search hs e = None <->
  (forall h, In h hs -> EventHandler.match_ h e = false).
Proof.
  induction hs as [| h0 hs IH]; intro e; simpl.
  - split; [intros _ h [] | reflexivity].
  - destruct (EventHandler.match_ h0 e) eqn:E0; simpl.
    + split; [discriminate |].
      intro H. specialize (H h0 (or_introl eq_refl)). congruence.
    + rewrite IH. split.
      * intros H h [<- | Hin]; auto.
      * intros H h Hin. apply H. right. exact Hin.
Qed.

Lemma search_first_match : forall pre h post e,
  (forall h', In h' pre -> EventHandler.match_ h' e = false) ->
  EventHandler.match_ h e = true ->
  State.search (pre ++ h :: post) e = Some h.
Proof.
  induction pre as [| p pre IH]; intros h post e Hpre Hh; simpl.
  - rewrite Hh. reflexivity.
  - rewrite (Hpre p (or_introl eq_refl)). simpl.
    apply IH; [| exact Hh].
    intros h' Hin. apply Hpre. right. exact Hin.
Qed.

Lemma store_same : forall hp s st, State.store hp s st s = st.
Proof.
  intros hp s st. unfold State.store. rewrite Nat.eqb_refl. reflexivity.
Qed.

Lemma store_other : forall hp s st x, x <> s -> State.store hp s st x = hp x.
Proof.
  intros hp s st x Hx. unfold State.store.
  apply Nat.eqb_neq in Hx. rewrite Hx. reflexivity.
Qed.

Lemma attach_appends : forall st signal tptr mptr,
  State._handlers (State.attach st signal tptr mptr) =
  State._handlers st ++ [EventHandler.mk (wrap32 signal) (Some (tptr, mptr))].
Proof.
  reflexivity.
Qed.

Lemma attach_all_handlers : forall regs hp s,
  State._handlers (attach_all hp s regs s) =
  State._handlers (hp s) ++ map handler_of regs.
Proof.
  induction regs as [| r regs IH]; intros hp s; simpl.
  - rewrite app_nil_r. reflexivity.
  - unfold attach_all in *. simpl. rewrite IH.
    unfold State.attach_at. rewrite store_same, attach_appends.
    rewrite <- app_assoc. reflexivity.
Qed.

Lemma attach_all_parent : forall regs hp s x,
  State._parent (attach_all hp s regs x) = State._parent (hp x).
Proof.
  induction regs as [| r regs IH]; intros hp s x; simpl.
  - reflexivity.
  - unfold attach_all in *. simpl. rewrite IH.
    unfold State.attach_at, State.store.
    destruct (Nat.eqb_spec x s) as [-> | Hx]; reflexivity.
Qed.


(** ** State: dispatch *)

Section DispatchFacts.
Context {U : Type} {B : Behaviour U}.

Lemma settle_more_fuel : forall fuel st next (w : World U) r,
  State.settle fuel st next w = Some r ->
  forall fuel', fuel <= fuel' -> State.settle fuel' st next w = Some r.
Proof.
  induction fuel as [| fuel IH]; intros st next w r H fuel' Hle;
    destruct next as [n |]; simpl in H.
  - destruct fuel'; simpl; destruct (Nat.eqb n st); congruence.
  - destruct fuel'; simpl; exact H.
  - destruct fuel' as [| fuel']; [lia |]. simpl.
    destruct (Nat.eqb n st); [exact H |].
    destruct (call_entry n (call_exit st w)) as [next' w2].
    apply IH with (fuel' := fuel') in H; [exact H | lia].
  - destruct fuel'; simpl; exact H.
Qed.

Lemma dispatch_more_fuel : forall fuel hp s e (w : World U) r,
  State.dispatch fuel hp s e w = Some r ->
  forall fuel', fuel <= fuel' -> State.dispatch fuel' hp s e w = Some r.
Proof.
  induction fuel as [| fuel IH]; intros hp s e w r H fuel' Hle; simpl in H.
  - discriminate.
  - destruct fuel' as [| fuel']; [lia |]. simpl.
    destruct e as [ev |].
    + destruct (State.search (State._handlers (hp s)) ev); [exact H |].
      destruct (State._parent (hp s)) as [p |]; [| exact H].
      apply IH with (fuel' := fuel') in H; [exact H | lia].
    + destruct (call_entry s w) as [next w1].
      destruct (State.settle fuel s next w1) as [[st w2] |] eqn:E; [| discriminate].
      apply settle_more_fuel with (fuel' := fuel') in E; [| lia].
      rewrite E. exact H.
Qed.

Lemma settle_sound : forall fuel s next (w w1 : World U) st w',
  call_entry s w = (next, w1) ->
  State.settle fuel s next w1 = Some (st, w') ->
  entry_chain s w st w'.
Proof.
  induction fuel as [| fuel IH]; intros s next w w1 st w' Hent H;
    destruct next as [n |]; simpl in H.
  - destruct (Nat.eqb_spec n s) as [-> | Hn]; [| discriminate].
    injection H as <- <-. eapply chain_settled; eauto.
  - injection H as <- <-. eapply chain_settled; eauto.
  - destruct (Nat.eqb_spec n s) as [-> | Hn].
    + injection H as <- <-. eapply chain_settled; eauto.
    + destruct (call_entry n (call_exit s w1)) as [next' w2] eqn:E.
      eapply chain_advance; eauto.
  - injection H as <- <-. eapply chain_settled; eauto.
Qed.

Lemma settle_complete : forall s (w : World U) st w',
  entry_chain s w st w' ->
  exists fuel,
    State.settle fuel s (fst (call_entry s w)) (snd (call_entry s w)) = Some (st, w').
Proof.
  induction 1 as [s w next w' Hent Hstop | s w n w1 st w' Hent Hn _ [fuel IH]].
  - exists 0. rewrite Hent. simpl.
    destruct Hstop as [-> | ->]; simpl; [reflexivity |].
    rewrite Nat.eqb_refl. reflexivity.
  - exists (S fuel). rewrite Hent. simpl.
    apply Nat.eqb_neq in Hn. rewrite Hn.
    destruct (call_entry n (call_exit s w1)) as [next' w2]. exact IH.
Qed.

(** C1: [dispatch] with the null event settles exactly as the entry
    processing of the spec does: [entry()] on the state itself, then
    [exit()] of the current state and [entry()] of the next while the
    result is a state other than the current one; the settled state is
    what it returns, never null. *)
Theorem dispatch_null_runs_entry_chain :
  forall (hp : State.Heap) (s : StateRef) (w : World U) (st : StateRef) (w' : World U),
  ((exists fuel, State.dispatch fuel hp s None w = Some (Some st, w')) <->
   entry_chain s w st w') /\
  (forall fuel, State.dispatch fuel hp s None w <> Some (None, w')).
Proof.
  intros hp s w st w'. split; [split |].
  - intros [fuel H]. destruct fuel as [| fuel]; simpl in H; [discriminate |].
    destruct (call_entry s w) as [next w1] eqn:Hent.
    destruct (State.settle fuel s next w1) as [[st1 w2] |] eqn:E; [| discriminate].
    injection H as <- <-. eapply settle_sound; eauto.
  - intro H. destruct (settle_complete _ _ _ _ H) as [fuel Hf].
    exists (S fuel). simpl.
    destruct (call_entry s w) as [next w1]. simpl in Hf. rewrite Hf. reflexivity.
  - intros fuel H. destruct fuel as [| fuel]; simpl in H; [discriminate |].
    destruct (call_entry s w) as [next w1].
    destruct (State.settle fuel s next w1) as [[st1 w2] |]; discriminate.
Qed.

(** C2: the handler list of a state is the list of its registrations in
    the order of the [attach] calls, and [dispatch] with an event invokes
    the bound member of the first registration whose mask intersects the
    signal, once, and returns its result; a later registration whose mask
    also intersects the signal is not invoked. *)
Theorem dispatch_first_registered_handler :
  forall (hp : State.Heap) (s : StateRef) (before after : list Registration)
         (M : Z) (tptr : StateRef) (mptr : MemberRef) (e : Event.t)
         (w : World U) (fuel : nat),
  (forall h, In h (State._handlers (hp s)) ->
             Z.land (Event.getSig e) (EventHandler._sig h) = 0%Z) ->
  (forall r, In r before ->
             Z.land (Event.getSig e) (wrap32 (fst (fst r))) = 0%Z) ->
  Z.land (Event.getSig e) (wrap32 M) <> 0%Z ->
  let hp' := attach_all hp s (before ++ (M, tptr, mptr) :: after) in
  State._handlers (hp' s) =
    State._handlers (hp s) ++ map handler_of (before ++ (M, tptr, mptr) :: after) /\
  State.dispatch (S fuel) hp' s (Some e) w = Some (call_member tptr mptr e w) /\
  calls (snd (call_member tptr mptr e w)) = calls w ++ [Invoked tptr mptr e].
Proof.
  intros hp s before after M tptr mptr e w fuel Hold Hbefore HM hp'.
  assert (Hhs : State._handlers (hp' s) =
                State._handlers (hp s) ++
                map handler_of (before ++ (M, tptr, mptr) :: after))
    by apply attach_all_handlers.
  split; [exact Hhs | split].
  - simpl. rewrite Hhs, map_app. simpl. rewrite app_assoc.
    rewrite search_first_match.
    + reflexivity.
    + intros h' Hin. apply match_false_iff.
      apply in_app_or in Hin. destruct Hin as [Hin | Hin].
      * apply Hold. exact Hin.
      * apply in_map_iff in Hin. destruct Hin as [r [<- Hr]].
        apply Hbefore. exact Hr.
    + apply match_true_iff. exact HM.
  - unfold call_member. destruct (member mptr tptr e (xif w)). reflexivity.
Qed.

(** C4: when no handler of a state matches the event, [dispatch] on a
    state with a parent is [dispatch] on that parent, with the same result
    and the same calls; on a state without a parent it returns null and
    calls nothing. *)
Theorem unmatched_event_goes_to_parent :
  forall (hp : State.Heap) (s : StateRef) (e : Event.t) (w : World U),
  (forall h, In h (State._handlers (hp s)) -> EventHandler.match_ h e = false) ->
  match State._parent (hp s) with
  | Some parent =>
      (forall fuel, State.dispatch (S fuel) hp s (Some e) w =
                    State.dispatch fuel hp parent (Some e) w) /\
      (forall r, (exists fuel, State.dispatch fuel hp s (Some e) w = Some r) <->
                 (exists fuel, State.dispatch fuel hp parent (Some e) w = Some r))
  | None => forall fuel, State.dispatch (S fuel) hp s (Some e) w = Some (None, w)
  end.
Proof.
  intros hp s e w Hnone. apply search_none_iff in Hnone.
  destruct (State._parent (hp s)) as [p |] eqn:Hp.
  - assert (Hstep : forall fuel, State.dispatch (S fuel) hp s (Some e) w =
                                 State.dispatch fuel hp p (Some e) w).
    { intro fuel. simpl. rewrite Hnone, Hp. reflexivity. }
    split; [exact Hstep |].
    intro r. split; intros [fuel H].
    + destruct fuel as [| fuel]; [discriminate |].
      rewrite Hstep in H. exists fuel. exact H.
    + exists (S fuel). rewrite Hstep. exact H.
  - intro fuel. simpl. rewrite Hnone, Hp. reflexivity.
Qed.

(** Delegation goes up the parent chain to the nearest state with a
    matching handler, and that handler gives the result. *)
Lemma dispatch_bubbles_up : forall hp e k s a,
  delegates hp e k s a ->
  forall fuel (w : World U),
  State.dispatch (k + fuel) hp s (Some e) w = State.dispatch fuel hp a (Some e) w.
Proof.
  induction 1 as [s | k s p a Hs Hp _ IH]; intros fuel w; simpl.
  - reflexivity.
  - rewrite Hs, Hp. apply IH.
Qed.

Lemma dispatch_handled_by_ancestor : forall hp e k s a h,
  delegates hp e k s a ->
  State.search (State._handlers (hp a)) e = Some h ->
  forall fuel (w : World U),
  State.dispatch (k + S fuel) hp s (Some e) w = Some (EventHandler.dispatch h e w).
Proof.
  intros hp e k s a h Hdel Hh fuel w.
  rewrite (dispatch_bubbles_up _ _ _ _ _ Hdel). simpl. rewrite Hh. reflexivity.
Qed.

End DispatchFacts.

(** ** The settling loop *)

Section SettlingFacts.
Context {U : Type} {B : Behaviour U}.

Lemma turn_when_not_pending : forall c : Settling,
  pending c = false -> turn c = c.
Proof.
  intros [[st [n |]] w] H; simpl in *; [| reflexivity].
  destruct (Nat.eqb n st); [reflexivity | discriminate].
Qed.

Lemma iter_turn_when_not_pending : forall k (c : Settling),
  pending c = false -> Nat.iter k turn c = c.
Proof.
  induction k as [| k IH]; intros c H; simpl; [reflexivity |].
  rewrite IH by exact H. apply turn_when_not_pending. exact H.
Qed.

Lemma iter_turn_shift : forall k (c : Settling),
  Nat.iter (S k) turn c = Nat.iter k turn (turn c).
Proof.
  induction k as [| k IH]; intro c; [reflexivity |].
  change (Nat.iter (S (S k)) turn c) with (turn (Nat.iter (S k) turn c)).
  rewrite IH. reflexivity.
Qed.

Lemma settle_follows_turns : forall k st next (w : World U),
  pending (Nat.iter k turn (st, next, w)) = false ->
  forall fuel, k <= fuel ->
  State.settle fuel st next w =
  Some (fst (fst (Nat.iter k turn (st, next, w))), snd (Nat.iter k turn (st, next, w))).
Proof.
  induction k as [| k IH]; intros st next w Hk fuel Hle.
  - simpl in *. destruct next as [n |].
    + apply negb_false_iff in Hk.
      destruct fuel; simpl; rewrite Hk; reflexivity.
    + destruct fuel; reflexivity.
  - rewrite iter_turn_shift in *.
    destruct (pending (st, next, w)) eqn:Hp.
    + destruct next as [n |]; simpl in Hp; [| discriminate].
      apply negb_true_iff in Hp.
      destruct fuel as [| fuel]; [lia |].
      simpl. simpl in Hk. rewrite Hp in *.
      destruct (call_entry n (call_exit st w)) as [next' w2].
      apply IH; [exact Hk | lia].
    + rewrite (turn_when_not_pending _ Hp) in *.
      rewrite (iter_turn_when_not_pending k _ Hp).
      destruct next as [n |]; simpl in Hp.
      * apply negb_false_iff in Hp.
        destruct fuel; simpl; rewrite Hp; reflexivity.
      * destruct fuel; reflexivity.
Qed.

Lemma ranked_entry_settles : forall (rank : StateRef -> nat),
  (forall s u r u', entry s u = (Some r, u') -> r <> s -> rank r < rank s) ->
  forall bound n (w : World U),
  rank n < bound ->
  exists k,
    pending (Nat.iter k turn (n, fst (call_entry n w), snd (call_entry n w))) = false.
Proof.
  intros rank Hrank. induction bound as [| bound IH]; intros n w Hlt; [lia |].
  destruct (call_entry n w) as [next w1] eqn:E. simpl.
  destruct next as [r |]; [| exists 0; reflexivity].
  destruct (Nat.eqb_spec r n) as [-> | Hr].
  - exists 0. simpl. rewrite Nat.eqb_refl. reflexivity.
  - assert (Hlt' : rank r < bound).
    { unfold call_entry in E. destruct (entry n (xif w)) as [nx u] eqn:En.
      injection E as -> _. specialize (Hrank _ _ _ _ En Hr). lia. }
    destruct (IH r (call_exit n w1) Hlt') as [k Hk].
    exists (S k). rewrite iter_turn_shift. simpl.
    apply Nat.eqb_neq in Hr. rewrite Hr.
    destruct (call_entry r (call_exit n w1)) as [next' w2]. exact Hk.
Qed.

(** A machine is well formed for settling when [entry()] only ever leads
    to the state itself or to a state of lower rank, as it does when
    composite states enter their default child. *)
Lemma ranked_chains_settle : forall (rank : StateRef -> nat),
  (forall s u r u', entry s u = (Some r, u') -> r <> s -> rank r < rank s) ->
  chains_settle.
Proof.
  intros rank Hrank [[st [n |]] w]; [| exists 0; reflexivity].
  destruct (Nat.eqb n st) eqn:E.
  - exists 0. simpl. rewrite E. reflexivity.
  - destruct (ranked_entry_settles rank Hrank (S (rank n)) n (call_exit st w))
      as [k Hk]; [lia |].
    exists (S k). rewrite iter_turn_shift. simpl. rewrite E.
    destruct (call_entry n (call_exit st w)) as [next' w2]. exact Hk.
Qed.

Lemma handle_more_fuel : forall fuel (m : Hsm.t U) ev m1,
  Hsm.handle fuel m ev = Some m1 ->
  forall fuel', fuel <= fuel' -> Hsm.handle fuel' m ev = Some m1.
Proof.
  intros fuel m ev m1 H fuel' Hle. unfold Hsm.handle in *.
  destruct (State.dispatch fuel (Hsm.heap m) (Hsm._state m) (Some ev)
              (note (Dispatched (Hsm._state m) ev) (Hsm.world m)))
    as [[next w1] |] eqn:Ed; [| discriminate].
  rewrite (dispatch_more_fuel _ _ _ _ _ _ Ed _ Hle).
  destruct (State.settle fuel (Hsm._state m) next w1) as [[st w2] |] eqn:Es;
    [| discriminate].
  rewrite (settle_more_fuel _ _ _ _ _ Es _ Hle). exact H.
Qed.

(** C6: a chain of entry-triggered transitions that reaches, after [k]
    turns, an [entry()] result that is null or the current state ends the
    settling loop, which yields the state and world reached there; this
    holds for the loop itself, for [dispatch] with the null event and for
    the exit/entry loop of [dispatchEvents]. *)
Theorem settling_terminates :
  forall (st : StateRef) (next : option StateRef) (w : World U) (k : nat),
  pending (Nat.iter k turn (st, next, w)) = false ->
  let final := Nat.iter k turn (st, next, w) in
  (forall fuel, k <= fuel ->
     State.settle fuel st next w = Some (fst (fst final), snd final)) /\
  (forall hp w0, call_entry st w0 = (next, w) ->
     forall fuel, k < fuel ->
     State.dispatch fuel hp st None w0 = Some (Some (fst (fst final)), snd final)) /\
  (forall (m : Hsm.t U) ev fuel0,
     Hsm._state m = st ->
     State.dispatch fuel0 (Hsm.heap m) st (Some ev)
       (note (Dispatched st ev) (Hsm.world m)) = Some (next, w) ->
     forall fuel, k <= fuel -> fuel0 <= fuel ->
     Hsm.handle fuel m ev =
     Some (Hsm.mk (Hsm.this m) (Hsm.heap m) (Hsm._states m) (Hsm._events m)
                  (fst (fst final)) (snd final))).
Proof.
  intros st next w k Hk final.
  pose proof (settle_follows_turns k st next w Hk) as Hs. fold final in Hs.
  split; [exact Hs | split].
  - intros hp w0 Hent fuel Hlt.
    destruct fuel as [| fuel]; [lia |]. simpl.
    rewrite Hent, Hs by lia. reflexivity.
  - intros m ev fuel0 Hst Hd fuel Hle Hle0. unfold Hsm.handle.
    rewrite Hst, (dispatch_more_fuel _ _ _ _ _ _ Hd _ Hle0), Hs by exact Hle.
    reflexivity.
Qed.

End SettlingFacts.

(** ** Events that no handler matches *)

Section Unmatched.
Context {U : Type} {B : Behaviour U}.

Lemma unmatched_dispatch_is_silent : forall fuel hp s e (w : World U),
  (forall a, ancestor hp s a ->
   forall h, In h (State._handlers (hp a)) -> EventHandler.match_ h e = false) ->
  State.dispatch fuel hp s (Some e) w = None \/
  State.dispatch fuel hp s (Some e) w = Some (None, w).
Proof.
  induction fuel as [| fuel IH]; intros hp s e w Hno; simpl; [left; reflexivity |].
  assert (Hs : State.search (State._handlers (hp s)) e = None).
  { apply search_none_iff. apply Hno. constructor. }
  rewrite Hs. destruct (State._parent (hp s)) as [p |] eqn:Hp.
  - apply IH. intros a Ha. apply Hno. econstructor; eauto.
  - right. reflexivity.
Qed.

Lemma unmatched_dispatch_returns : forall n hp s e (w : World U),
  rooted_within n hp s = true ->
  (forall a, ancestor hp s a ->
   forall h, In h (State._handlers (hp a)) -> EventHandler.match_ h e = false) ->
  forall fuel, n < fuel -> State.dispatch fuel hp s (Some e) w = Some (None, w).
Proof.
  induction n as [| n IH]; intros hp s e w Hroot Hno fuel Hlt;
    (destruct fuel as [| fuel]; [lia |]); simpl;
    assert (Hs : State.search (State._handlers (hp s)) e = None)
      by (apply search_none_iff; apply Hno; constructor);
    rewrite Hs; simpl in Hroot;
    destruct (State._parent (hp s)) as [p |] eqn:Hp; try reflexivity.
  - discriminate.
  - apply IH; [exact Hroot | | lia].
    intros a Ha. apply Hno. econstructor; eauto.
Qed.

Lemma settle_nothing_pending : forall fuel st (w : World U),
  State.settle fuel st None w = Some (st, w).
Proof.
  intros [| fuel] st w; reflexivity.
Qed.

Lemma unmatched_handle_returns : forall n fuel (m : Hsm.t U) ev,
  (forall a, ancestor (Hsm.heap m) (Hsm._state m) a ->
   forall h, In h (State._handlers (Hsm.heap m a)) ->
             EventHandler.match_ h ev = false) ->
  rooted_within n (Hsm.heap m) (Hsm._state m) = true -> n < fuel ->
  Hsm.handle fuel m ev =
  Some (Hsm.mk (Hsm.this m) (Hsm.heap m) (Hsm._states m) (Hsm._events m)
               (Hsm._state m) (note (Dispatched (Hsm._state m) ev) (Hsm.world m))).
Proof.
  intros n fuel m ev Hno Hroot Hlt. unfold Hsm.handle.
  rewrite (unmatched_dispatch_returns n _ _ _ _ Hroot Hno fuel Hlt).
  rewrite settle_nothing_pending. reflexivity.
Qed.

Lemma unmatched_drain_step : forall n fuel (m : Hsm.t U) ev rest,
  (forall a, ancestor (Hsm.heap m) (Hsm._state m) a ->
   forall h, In h (State._handlers (Hsm.heap m a)) ->
             EventHandler.match_ h ev = false) ->
  rooted_within n (Hsm.heap m) (Hsm._state m) = true -> n < fuel ->
  Hsm._events m = ev :: rest ->
  Hsm.dispatchEvents (S fuel) m =
  Hsm.dispatchEvents fuel
    (Hsm.mk (Hsm.this m) (Hsm.heap m) (Hsm._states m) rest (Hsm._state m)
            (note (Dispatched (Hsm._state m) ev) (Hsm.world m))).
Proof.
  intros n fuel m ev rest Hno Hroot Hlt Hq. simpl. rewrite Hq. simpl.
  rewrite (unmatched_handle_returns n fuel m ev Hno Hroot Hlt). simpl.
  rewrite Hq, removeItem_first by apply same_refl. reflexivity.
Qed.

(** C5: an event that matches no handler of the active state or of any of
    its ancestors changes nothing but the log entry of its dispatch: the
    active state, the registry, the shared context and the calls into
    application code stay as they were, and [dispatchEvents] goes on with
    the rest of the queue. *)
Theorem unmatched_event_has_no_effect :
  forall (m : Hsm.t U) (ev : Event.t),
  (forall a, ancestor (Hsm.heap m) (Hsm._state m) a ->
   forall h, In h (State._handlers (Hsm.heap m a)) ->
             EventHandler.match_ h ev = false) ->
  let w' := note (Dispatched (Hsm._state m) ev) (Hsm.world m) in
  let m' := Hsm.mk (Hsm.this m) (Hsm.heap m) (Hsm._states m) (Hsm._events m)
                   (Hsm._state m) w' in
  (forall fuel, Hsm.handle fuel m ev = None \/ Hsm.handle fuel m ev = Some m') /\
  (forall n fuel, rooted_within n (Hsm.heap m) (Hsm._state m) = true -> n < fuel ->
     Hsm.handle fuel m ev = Some m' /\
     forall rest, Hsm._events m = ev :: rest ->
       Hsm.dispatchEvents (S fuel) m =
       Hsm.dispatchEvents fuel
         (Hsm.mk (Hsm.this m) (Hsm.heap m) (Hsm._states m) rest (Hsm._state m) w')) /\
  app_calls (calls w') = app_calls (calls (Hsm.world m)) /\
  xif w' = xif (Hsm.world m).
Proof.
  intros m ev Hno w' m'.
  split; [| split; [| split]].
  - intro fuel. unfold Hsm.handle.
    destruct (unmatched_dispatch_is_silent fuel (Hsm.heap m) (Hsm._state m) ev
                (note (Dispatched (Hsm._state m) ev) (Hsm.world m)) Hno) as [E | E];
      rewrite E; [left; reflexivity |].
    rewrite settle_nothing_pending. right. reflexivity.
  - intros n fuel Hroot Hlt. split.
    + apply unmatched_handle_returns with (n := n); assumption.
    + intros rest Hq. apply unmatched_drain_step with (n := n); assumption.
  - unfold w', note. simpl.
    induction (calls (Hsm.world m)) as [| c cs IH]; simpl; [reflexivity |].
    destruct c; simpl; rewrite ?IH; reflexivity.
  - reflexivity.
Qed.

(** C10: an event whose signal is 0 matches no handler, whatever its mask,
    and a handler that was never attached has mask 0 and matches no event;
    so [dispatch] of such an event returns null with nothing called, on
    every state whose parent chain ends, and draining the event leaves the
    active state as it was. *)
Theorem zero_signal_is_never_handled :
  forall (e : Event.t),
  Event.getSig e = 0%Z ->
  (forall h, EventHandler.match_ h e = false) /\
  (forall e', EventHandler.match_ EventHandler.new e' = false) /\
  (forall fuel hp s (w : World U),
     State.dispatch fuel hp s (Some e) w = None \/
     State.dispatch fuel hp s (Some e) w = Some (None, w)) /\
  (forall n fuel hp s (w : World U),
     rooted_within n hp s = true -> n < fuel ->
     State.dispatch fuel hp s (Some e) w = Some (None, w)) /\
  (forall n fuel (m : Hsm.t U) rest,
     rooted_within n (Hsm.heap m) (Hsm._state m) = true -> n < fuel ->
     Hsm._events m = e :: rest ->
     Hsm.dispatchEvents (S fuel) m =
     Hsm.dispatchEvents fuel
       (Hsm.mk (Hsm.this m) (Hsm.heap m) (Hsm._states m) rest (Hsm._state m)
               (note (Dispatched (Hsm._state m) e) (Hsm.world m)))).
Proof.
  intros e He.
  assert (Hno : forall h, EventHandler.match_ h e = false).
  { intro h. apply match_false_iff. rewrite He. apply Z.land_0_l. }
  split; [exact Hno | split; [| split; [| split]]].
  - intro e'. apply match_false_iff. apply Z.land_0_r.
  - intros fuel hp s w. apply unmatched_dispatch_is_silent. intros; apply Hno.
  - intros n fuel hp s w Hroot Hlt.
    apply unmatched_dispatch_returns with (n := n); auto.
  - intros n fuel m rest Hroot Hlt Hq.
    apply unmatched_drain_step with (n := n); auto.
Qed.

End Unmatched.

(** ** The event queue *)

Section QueueFacts.
Context {U : Type} {B : Behaviour U}.

Lemma dispatched_app : forall a b,
  dispatched (a ++ b) = dispatched a ++ dispatched b.
Proof.
  induction a as [| c a IH]; intro b; simpl; [reflexivity |].
  destruct c; simpl; rewrite IH; reflexivity.
Qed.

Lemma call_entry_dispatched : forall s (w : World U) next w',
  call_entry s w = (next, w') -> dispatched (calls w') = dispatched (calls w).
Proof.
  intros s w next w' H. unfold call_entry in H.
  destruct (entry s (xif w)) as [nx u]. injection H as _ <-. simpl.
  rewrite dispatched_app. simpl. apply app_nil_r.
Qed.

Lemma call_exit_dispatched : forall s (w : World U),
  dispatched (calls (call_exit s w)) = dispatched (calls w).
Proof.
  intros s w. simpl. rewrite dispatched_app. simpl. apply app_nil_r.
Qed.

Lemma call_member_dispatched : forall obj mptr e (w : World U) next w',
  call_member obj mptr e w = (next, w') ->
  dispatched (calls w') = dispatched (calls w).
Proof.
  intros obj mptr e w next w' H. unfold call_member in H.
  destruct (member mptr obj e (xif w)) as [nx u]. injection H as _ <-. simpl.
  rewrite dispatched_app. simpl. apply app_nil_r.
Qed.

Lemma settle_dispatched : forall fuel st next (w : World U) st' w',
  State.settle fuel st next w = Some (st', w') ->
  dispatched (calls w') = dispatched (calls w).
Proof.
  induction fuel as [| fuel IH]; intros st next w st' w' H;
    destruct next as [n |]; simpl in H;
    try (destruct (Nat.eqb n st)); try discriminate;
    try (injection H as _ <-; reflexivity).
  destruct (call_entry n (call_exit st w)) as [next' w2] eqn:E.
  apply IH in H. rewrite H.
  rewrite (call_entry_dispatched _ _ _ _ E). apply call_exit_dispatched.
Qed.

Lemma dispatch_event_dispatched : forall fuel hp s ev (w : World U) next w',
  State.dispatch fuel hp s (Some ev) w = Some (next, w') ->
  dispatched (calls w') = dispatched (calls w).
Proof.
  induction fuel as [| fuel IH]; intros hp s ev w next w' H; simpl in H;
    [discriminate |].
  destruct (State.search (State._handlers (hp s)) ev) as [h |].
  - injection H as H. unfold EventHandler.dispatch in H.
    destruct (EventHandler._handler h) as [[obj mptr] |].
    + eapply call_member_dispatched; eauto.
    + injection H as _ <-. reflexivity.
  - destruct (State._parent (hp s)) as [p |].
    + eapply IH; eauto.
    + injection H as _ <-. reflexivity.
Qed.

Lemma handle_frame : forall fuel (m : Hsm.t U) ev m1,
  Hsm.handle fuel m ev = Some m1 ->
  Hsm.this m1 = Hsm.this m /\ Hsm.heap m1 = Hsm.heap m /\
  Hsm._states m1 = Hsm._states m /\ Hsm._events m1 = Hsm._events m /\
  dispatched (calls (Hsm.world m1)) = dispatched (calls (Hsm.world m)) ++ [ev].
Proof.
  intros fuel m ev m1 H. split_handle H Ed Es.
  injection H as <-. simpl. repeat split.
  rewrite (settle_dispatched _ _ _ _ _ _ Es).
  rewrite (dispatch_event_dispatched _ _ _ _ _ _ _ Ed).
  simpl. rewrite dispatched_app. reflexivity.
Qed.

Lemma dispatchEvents_order : forall fuel (m : Hsm.t U) st m',
  Hsm.dispatchEvents fuel m = Some (st, m') ->
  dispatched (calls (Hsm.world m')) =
    dispatched (calls (Hsm.world m)) ++ Hsm._events m /\
  Hsm._events m' = [] /\ st = Hsm._state m' /\
  Hsm.this m' = Hsm.this m /\ Hsm.heap m' = Hsm.heap m /\
  Hsm._states m' = Hsm._states m.
Proof.
  induction fuel as [| fuel IH]; intros m st m' H; simpl in H;
    destruct (Hsm._events m) as [| ev rest] eqn:Hq; simpl in H;
    try discriminate;
    try (injection H as <- <-; rewrite Hq, app_nil_r; repeat split; reflexivity).
  destruct (Hsm.handle fuel m ev) as [m1 |] eqn:Eh; [| discriminate].
  destruct (handle_frame _ _ _ _ Eh) as [Ht [Hh [Hs [He Hd]]]].
  apply IH in H. simpl in H.
  destruct H as [Hd' [He' [Hst [Ht' [Hh' Hs']]]]].
  rewrite He, Hq, removeItem_first in Hd' by apply same_refl.
  rewrite Hd' , Hd, <- app_assoc. simpl.
  repeat split; congruence.
Qed.

Lemma raise_all_events : forall evs (m : Hsm.t U),
  Hsm._events (fold_left Hsm.raiseEvent evs m) = Hsm._events m ++ evs /\
  Hsm.world (fold_left Hsm.raiseEvent evs m) = Hsm.world m /\
  Hsm.heap (fold_left Hsm.raiseEvent evs m) = Hsm.heap m /\
  Hsm._state (fold_left Hsm.raiseEvent evs m) = Hsm._state m.
Proof.
  induction evs as [| e evs IH]; intro m; simpl.
  - rewrite app_nil_r. repeat split.
  - destruct (IH (Hsm.raiseEvent m e)) as [He [Hw [Hh Hs]]].
    rewrite He, Hw, Hh, Hs. simpl. unfold List_.addItem.
    rewrite <- app_assoc. repeat split.
Qed.

Lemma dispatchEvents_more_fuel : forall fuel (m : Hsm.t U) r,
  Hsm.dispatchEvents fuel m = Some r ->
  forall fuel', fuel <= fuel' -> Hsm.dispatchEvents fuel' m = Some r.
Proof.
  induction fuel as [| fuel IH]; intros m r H fuel' Hle; simpl in H;
    destruct (List_.getFirstItem (Hsm._events m)) as [ev |] eqn:Hq;
    try discriminate.
  - destruct fuel'; simpl; rewrite Hq; exact H.
  - destruct fuel' as [| fuel']; [lia |]. simpl. rewrite Hq.
    destruct (Hsm.handle fuel m ev) as [m1 |] eqn:Eh; [| discriminate].
    rewrite (handle_more_fuel _ _ _ _ Eh fuel') by lia.
    apply IH with (fuel' := fuel') in H; [exact H | lia].
  - destruct fuel'; simpl; rewrite Hq; exact H.
Qed.

Lemma dispatch_event_returns : forall n hp s ev (w : World U),
  rooted_within n hp s = true ->
  forall fuel, n < fuel -> exists r, State.dispatch fuel hp s (Some ev) w = Some r.
Proof.
  induction n as [| n IH]; intros hp s ev w Hroot fuel Hlt;
    (destruct fuel as [| fuel]; [lia |]); simpl; simpl in Hroot;
    destruct (State.search (State._handlers (hp s)) ev) as [h |]; eauto;
    destruct (State._parent (hp s)) as [p |]; eauto.
  - discriminate.
  - apply IH; [exact Hroot | lia].
Qed.

Lemma handle_returns : forall (m : Hsm.t U) ev,
  chains_settle -> rooted (Hsm.heap m) ->
  exists fuel m1, Hsm.handle fuel m ev = Some m1.
Proof.
  intros m ev Hsettle Hroot.
  destruct (Hroot (Hsm._state m)) as [n Hn].
  destruct (dispatch_event_returns n _ _ ev
              (note (Dispatched (Hsm._state m) ev) (Hsm.world m)) Hn (S n))
    as [[next w1] Hd]; [lia |].
  destruct (Hsettle (Hsm._state m, next, w1)) as [k Hk].
  exists (Nat.max (S n) k). eexists. unfold Hsm.handle.
  rewrite (dispatch_more_fuel _ _ _ _ _ _ Hd (Nat.max (S n) k)) by lia.
  rewrite (settle_follows_turns k _ _ _ Hk (Nat.max (S n) k)) by lia.
  reflexivity.
Qed.

Lemma dispatchEvents_returns : forall q (m : Hsm.t U),
  chains_settle -> rooted (Hsm.heap m) -> Hsm._events m = q ->
  exists fuel st m', Hsm.dispatchEvents fuel m = Some (st, m').
Proof.
  induction q as [| ev rest IH]; intros m Hsettle Hroot Hq.
  - exists 0. simpl. rewrite Hq. simpl. eauto.
  - destruct (handle_returns m ev Hsettle Hroot) as [f1 [m1 Hh]].
    destruct (handle_frame _ _ _ _ Hh) as [_ [Hheap [_ [He _]]]].
    destruct (IH (Hsm.mk (Hsm.this m1) (Hsm.heap m1) (Hsm._states m1) rest
                         (Hsm._state m1) (Hsm.world m1)) Hsettle)
      as [f2 [st [m' Hd]]]; simpl; [rewrite Hheap; exact Hroot | reflexivity |].
    exists (S (Nat.max f1 f2)), st, m'. simpl. rewrite Hq. simpl.
    rewrite (handle_more_fuel _ _ _ _ Hh (Nat.max f1 f2)) by lia.
    rewrite He, Hq, removeItem_first by apply same_refl.
    apply dispatchEvents_more_fuel with (fuel := f2); [exact Hd | lia].
Qed.

Lemma raise_all_machine : forall evs (m : Hsm.t U),
  fold_left Hsm.raiseEvent evs m =
  Hsm.mk (Hsm.this m) (Hsm.heap m) (Hsm._states m) (Hsm._events m ++ evs)
         (Hsm._state m) (Hsm.world m).
Proof.
  induction evs as [| e evs IH]; intro m; simpl.
  - rewrite app_nil_r. destruct m; reflexivity.
  - rewrite IH. unfold Hsm.raiseEvent, List_.addItem. simpl.
    rewrite <- app_assoc. reflexivity.
Qed.

Lemma dispatched_to_app : forall a b,
  dispatched_to (a ++ b) = dispatched_to a ++ dispatched_to b.
Proof.
  induction a as [| c a IH]; intro b; simpl; [reflexivity |].
  destruct c; simpl; rewrite IH; reflexivity.
Qed.

Lemma settle_dispatched_to : forall fuel st next (w : World U) st' w',
  State.settle fuel st next w = Some (st', w') ->
  dispatched_to (calls w') = dispatched_to (calls w).
Proof.
  induction fuel as [| fuel IH]; intros st next w st' w' H;
    destruct next as [n |]; simpl in H;
    try (destruct (Nat.eqb n st)); try discriminate;
    try (injection H as _ <-; reflexivity).
  destruct (call_entry n (call_exit st w)) as [next' w2] eqn:E.
  apply IH in H. rewrite H. unfold call_entry in E.
  destruct (entry n (xif (call_exit st w))) as [nx u]. injection E as _ <-.
  simpl. rewrite !dispatched_to_app. simpl. rewrite !app_nil_r. reflexivity.
Qed.

Lemma dispatch_event_dispatched_to : forall fuel hp s ev (w : World U) next w',
  State.dispatch fuel hp s (Some ev) w = Some (next, w') ->
  dispatched_to (calls w') = dispatched_to (calls w).
Proof.
  induction fuel as [| fuel IH]; intros hp s ev w next w' H; simpl in H;
    [discriminate |].
  destruct (State.search (State._handlers (hp s)) ev) as [h |].
  - injection H as H. unfold EventHandler.dispatch in H.
    destruct (EventHandler._handler h) as [[obj mptr] |].
    + unfold call_member in H.
      destruct (member mptr obj ev (xif w)) as [nx u]. injection H as _ <-.
      simpl. rewrite dispatched_to_app. simpl. apply app_nil_r.
    + injection H as _ <-. reflexivity.
  - destruct (State._parent (hp s)) as [p |].
    + eapply IH; eauto.
    + injection H as _ <-. reflexivity.
Qed.

(** The log names, for each event served, the state it was dispatched
    to. *)
Lemma served_trail : forall hp st (w : World U) trail st' w',
  served hp st w trail st' w' ->
  dispatched_to (calls w') = dispatched_to (calls w) ++ trail.
Proof.
  induction 1 as [st w | st w e trail next w1 st1 w2 st' w' [f1 Hd] [f2 Hs] _ IH].
  - rewrite app_nil_r. reflexivity.
  - rewrite IH, (settle_dispatched_to _ _ _ _ _ _ Hs).
    rewrite (dispatch_event_dispatched_to _ _ _ _ _ _ _ Hd). simpl.
    rewrite dispatched_to_app, <- app_assoc. reflexivity.
Qed.

Lemma drain_serves : forall fuel (m : Hsm.t U) st m',
  Hsm.dispatchEvents fuel m = Some (st, m') ->
  exists trail,
    map snd trail = Hsm._events m /\
    served (Hsm.heap m) (Hsm._state m) (Hsm.world m) trail st (Hsm.world m') /\
    m' = Hsm.mk (Hsm.this m) (Hsm.heap m) (Hsm._states m) [] st (Hsm.world m').
Proof.
  induction fuel as [| fuel IH]; intros m st m' H; simpl in H;
    destruct (Hsm._events m) as [| ev rest] eqn:Hq; simpl in H;
    try discriminate;
    try (injection H as <- <-; exists [];
         repeat split; [constructor | destruct m; simpl in *; congruence]).
  destruct (Hsm.handle fuel m ev) as [m1 |] eqn:Eh; [| discriminate].
  split_handle Eh Ed Es. injection Eh as <-. simpl in H.
  rewrite Hq, removeItem_first in H by apply same_refl.
  destruct (IH _ _ _ H) as [trail [Hev [Hserved Hm']]]. simpl in *.
  exists ((Hsm._state m, ev) :: trail). simpl. rewrite Hev.
  repeat split; [| exact Hm'].
  econstructor; eauto.
Qed.

Lemma serves_drain : forall hp st (w : World U) trail st' w',
  served hp st w trail st' w' ->
  forall this states,
  exists fuel,
    Hsm.dispatchEvents fuel (Hsm.mk this hp states (map snd trail) st w) =
    Some (st', Hsm.mk this hp states [] st' w').
Proof.
  induction 1 as [st w | st w e trail next w1 st1 w2 st' w' [f1 Hd] [f2 Hs] _ IH];
    intros this states.
  - exists 0. reflexivity.
  - destruct (IH this states) as [f3 H3].
    exists (S (Nat.max f1 (Nat.max f2 f3))). simpl.
    unfold Hsm.handle. simpl.
    rewrite (dispatch_more_fuel _ _ _ _ _ _ Hd (Nat.max f1 (Nat.max f2 f3))) by lia.
    rewrite (settle_more_fuel _ _ _ _ _ Hs (Nat.max f1 (Nat.max f2 f3))) by lia.
    simpl. rewrite same_refl.
    apply dispatchEvents_more_fuel with (fuel := f3); [exact H3 | lia].
Qed.

(** C7: [raiseEvent] appends at the tail of the queue, and
    [dispatchEvents] serves the queue from the head until it is empty: it
    returns exactly when the queued events followed by the raised ones, in
    the order of the [raiseEvent] calls, can be served one after the other,
    each dispatched by [State::dispatch] to the state that is active when
    its turn comes and followed by the exit/entry settling; the machine it
    leaves is the one reached that way, and the log names each event with
    the state it was dispatched to, in that order.  It returns whenever
    entry chains settle and no parent chain is cyclic. *)
Theorem events_are_dispatched_in_raise_order :
  forall (m : Hsm.t U) (evs : list Event.t),
  let m0 := fold_left Hsm.raiseEvent evs m in
  Hsm._events m0 = Hsm._events m ++ evs /\
  (forall st m',
     (exists fuel, Hsm.dispatchEvents fuel m0 = Some (st, m')) <->
     (exists trail,
        map snd trail = Hsm._events m ++ evs /\
        served (Hsm.heap m) (Hsm._state m) (Hsm.world m) trail st (Hsm.world m') /\
        dispatched_to (calls (Hsm.world m')) =
          dispatched_to (calls (Hsm.world m)) ++ trail /\
        m' = Hsm.mk (Hsm.this m) (Hsm.heap m) (Hsm._states m) [] st
                    (Hsm.world m'))) /\
  (forall fuel st m',
     Hsm.dispatchEvents fuel m0 = Some (st, m') ->
     dispatched (calls (Hsm.world m')) =
       dispatched (calls (Hsm.world m)) ++ Hsm._events m ++ evs /\
     Hsm._events m' = [] /\ st = Hsm._state m') /\
  (chains_settle -> rooted (Hsm.heap m) ->
   exists fuel st m', Hsm.dispatchEvents fuel m0 = Some (st, m')).
Proof.
  intros m evs m0.
  destruct (raise_all_events evs m) as [He [Hw [Hh _]]]. fold m0 in He, Hw, Hh.
  assert (Hm0 : m0 = Hsm.mk (Hsm.this m) (Hsm.heap m) (Hsm._states m)
                            (Hsm._events m ++ evs) (Hsm._state m) (Hsm.world m))
    by apply raise_all_machine.
  split; [exact He | split; [| split]].
  - intros st m'. split.
    + intros [fuel H]. rewrite Hm0 in H.
      destruct (drain_serves _ _ _ _ H) as [trail [Hev [Hserved Hm']]].
      simpl in *. exists trail. repeat split; auto.
      eapply served_trail; eauto.
    + intros [trail [Hev [Hserved [_ Hm']]]].
      destruct (serves_drain _ _ _ _ _ _ Hserved (Hsm.this m) (Hsm._states m))
        as [fuel H].
      exists fuel. rewrite Hm0, <- Hev, Hm'. exact H.
  - intros fuel st m' H.
    destruct (dispatchEvents_order _ _ _ _ H) as [Hd [Hq [Hst _]]].
    rewrite Hw, He in Hd. auto.
  - intros Hsettle Hroot.
    apply dispatchEvents_returns with (q := Hsm._events m0); auto.
    rewrite Hh. exact Hroot.
Qed.

(** C8: on an empty queue [dispatchEvents] returns the active state at
    once and leaves the whole machine as it is: active state, queue,
    registry, objects and world. *)
Theorem drain_of_empty_queue_is_noop :
  forall (m : Hsm.t U),
  Hsm._events m = [] ->
  forall fuel, Hsm.dispatchEvents fuel m = Some (Hsm._state m, m).
Proof.
  intros m Hq fuel. destruct fuel; simpl; rewrite Hq; reflexivity.
Qed.

End QueueFacts.

(** ** The active state *)

Section ActiveState.
Context {U : Type} {B : Behaviour U}.

Lemma call_entry_names_target : forall s (w : World U) r w',
  call_entry s w = (Some r, w') -> entry_target r.
Proof.
  intros s w r w' H. unfold call_entry in H.
  destruct (entry s (xif w)) as [nx u] eqn:E. injection H as -> _.
  exists s, (xif w), u. exact E.
Qed.

Lemma search_finds_member : forall hs e h,
  State.search hs e = Some h -> In h hs.
Proof.
  induction hs as [| h0 hs IH]; intros e h H; simpl in H; [discriminate |].
  destruct (EventHandler.match_ h0 e); simpl in H.
  - injection H as <-. left. reflexivity.
  - right. eapply IH; eauto.
Qed.

Lemma settle_lands : forall (P : StateRef -> Prop),
  (forall r, entry_target r -> P r) ->
  forall fuel st next (w : World U) st' w',
  State.settle fuel st next w = Some (st', w') ->
  (forall n, next = Some n -> P n) ->
  st' = st \/ P st'.
Proof.
  intros P HP.
  induction fuel as [| fuel IH]; intros st next w st' w' H Hnext;
    destruct next as [n |]; simpl in H;
    try (destruct (Nat.eqb n st)); try discriminate;
    try (injection H as <- _; left; reflexivity).
  destruct (call_entry n (call_exit st w)) as [next' w2] eqn:E.
  apply IH in H.
  - destruct H as [-> | H]; right; auto.
  - intros r ->. apply HP. eapply call_entry_names_target; eauto.
Qed.

Lemma dispatch_event_names_target : forall fuel hp s ev (w : World U) r w',
  State.dispatch fuel hp s (Some ev) w = Some (Some r, w') ->
  handler_target hp r.
Proof.
  induction fuel as [| fuel IH]; intros hp s ev w r w' H; simpl in H;
    [discriminate |].
  destruct (State.search (State._handlers (hp s)) ev) as [h |] eqn:Hs.
  - injection H as H. unfold EventHandler.dispatch in H.
    destruct (EventHandler._handler h) as [[obj mptr] |] eqn:Hb;
      [| discriminate].
    unfold call_member in H.
    destruct (member mptr obj ev (xif w)) as [nx u] eqn:Hm.
    injection H as -> _.
    exists s, h, obj, mptr, ev, (xif w), u.
    split; [eapply search_finds_member; eauto | split; assumption].
  - destruct (State._parent (hp s)) as [p |]; [| discriminate].
    eapply IH; eauto.
Qed.

Lemma init_lands : forall fuel (m : Hsm.t U) st m',
  Hsm.init fuel m = Some (st, m') ->
  (Hsm._state m' = Hsm.this m \/ entry_target (Hsm._state m')) /\
  Hsm.this m' = Hsm.this m /\ Hsm._states m' = Hsm._states m.
Proof.
  intros fuel m st m' H. unfold Hsm.init in H.
  destruct fuel as [| fuel]; simpl in H; [discriminate |].
  destruct (call_entry (Hsm.this m) (Hsm.world m)) as [next w1] eqn:E.
  destruct (State.settle fuel (Hsm.this m) next w1) as [[st1 w2] |] eqn:Es;
    [| discriminate].
  injection H as _ <-. simpl. repeat split.
  apply (settle_lands entry_target (fun r Hr => Hr) _ _ _ _ _ _ Es).
  intros n ->. eapply call_entry_names_target; eauto.
Qed.

Lemma handle_lands : forall fuel (m : Hsm.t U) ev m1,
  Hsm.handle fuel m ev = Some m1 ->
  (Hsm._state m1 = Hsm._state m \/
   entry_target (Hsm._state m1) \/ handler_target (Hsm.heap m) (Hsm._state m1)) /\
  Hsm.heap m1 = Hsm.heap m.
Proof.
  intros fuel m ev m1 H. split_handle H Ed Es.
  injection H as <-. simpl. split; [| reflexivity].
  apply (settle_lands
           (fun r => entry_target r \/ handler_target (Hsm.heap m) r)
           (fun r Hr => or_introl Hr) _ _ _ _ _ _ Es).
  intros n ->. right. eapply dispatch_event_names_target; eauto.
Qed.

Lemma dispatchEvents_lands : forall fuel (m : Hsm.t U) st m',
  Hsm.dispatchEvents fuel m = Some (st, m') ->
  Hsm._state m' = Hsm._state m \/
  entry_target (Hsm._state m') \/ handler_target (Hsm.heap m) (Hsm._state m').
Proof.
  induction fuel as [| fuel IH]; intros m st m' H; simpl in H;
    destruct (List_.getFirstItem (Hsm._events m)) as [ev |];
    try discriminate; try (injection H as _ <-; left; reflexivity).
  destruct (Hsm.handle fuel m ev) as [m1 |] eqn:Eh; [| discriminate].
  destruct (handle_lands _ _ _ _ Eh) as [Hst Hheap].
  apply IH in H. simpl in H. rewrite Hheap in H.
  destruct H as [H | H]; [| right; exact H].
  rewrite H. exact Hst.
Qed.

(** Naming every member function, bound or not, asks for more than naming
    the bound ones. *)
Lemma registered_covers_targets : forall (m : Hsm.t U),
  registered m -> targets_registered m.
Proof.
  intros m Hreg r [[s [u [u' H]]] | [s [h [obj [mptr [e [u [u' [_ [_ H]]]]]]]]]];
    apply Hreg.
  - left. eauto.
  - right. exists mptr, obj, e. eauto.
Qed.

(** C9, as amended: as long as the machine is only run when every state
    that an [entry()] can return, or that a member function bound to a
    handler attached to one of its states can return, is in the registry or
    is the machine itself, the active state is in the registry or is the
    machine itself in every configuration reached by construction,
    [attach], [attachState], [raiseEvent], [init] and [dispatchEvents].
    Member functions that no handler is bound to do not count. *)
Theorem active_state_known_when_bound_targets_registered :
  forall (m : Hsm.t U), reachable targets_registered m -> active_known m.
Proof.
  intros m Hreach. unfold active_known.
  induction Hreach as
    [ at_ parent hp w
    | m s signal tptr mptr _ IH
    | m st _ IH
    | m e _ IH
    | m fuel st m' _ IH Hready Hinit
    | m fuel st m' _ IH Hready Hrun ]; simpl.
  - left. reflexivity.
  - exact IH.
  - destruct IH as [IH | IH]; [left; exact IH |].
    right. unfold List_.addItem. apply in_or_app. left. exact IH.
  - exact IH.
  - destruct (init_lands _ _ _ _ Hinit) as [Hst [Ht Hs]].
    rewrite Ht, Hs. destruct Hst as [Hst | Hst]; [left; exact Hst |].
    apply Hready. left. exact Hst.
  - destruct (dispatchEvents_order _ _ _ _ Hrun) as [_ [_ [_ [Ht [_ Hs]]]]].
    rewrite Ht, Hs.
    destruct (dispatchEvents_lands _ _ _ _ Hrun) as [Hst | Hst].
    + rewrite Hst. exact IH.
    + apply Hready. exact Hst.
Qed.

End ActiveState.

(** ** The demo machine *)

Section DemoFacts.
#[local] Existing Instance Demo.behaviour.

Lemma demo_chains_settle : chains_settle.
Proof.
  apply ranked_chains_settle with (rank := fun s => 5 - s).
  intros s u r u' H Hr. simpl in H.
  destruct s as [| [| [| [| [| s]]]]]; inversion H; subst; simpl;
    try lia; contradiction.
Qed.

Lemma demo_rooted : forall m : Hsm.t nat,
  Hsm.heap m = Hsm.heap Demo.wired -> rooted (Hsm.heap m).
Proof.
  intros m -> s. exists 3.
  destruct s as [| [| [| [| [| s]]]]]; reflexivity.
Qed.

Lemma demo_registered : forall m : Hsm.t nat,
  Hsm.this m = Demo.ROOT ->
  Hsm._states m = [Demo.IDLE; Demo.ACTIVE; Demo.WARMUP; Demo.RUNNING] ->
  registered m.
Proof.
  intros m Ht Hs r Hr. rewrite Ht, Hs.
  destruct Hr as [[s [u [u' H]]] | [mptr [obj [e [u [u' H]]]]]]; simpl in H.
  - destruct s as [| [| [| [| [| s]]]]]; inversion H; subst; simpl; tauto.
  - destruct mptr as [| [| mptr]]; inversion H; subst; simpl; tauto.
Qed.

Lemma demo_unknown_unmatched : forall a h,
  In h (State._handlers (Hsm.heap Demo.wired a)) ->
  EventHandler.match_ h Demo.unknown = false.
Proof.
  intros a h Hin.
  destruct a as [| [| [| [| [| a]]]]]; cbv in Hin;
    try contradiction; destruct Hin as [<- | []]; reflexivity.
Qed.

End DemoFacts.

(** Two states whose [entry()] name each other never settle: the loop ends
    only when [entry()] returns null or the state it was called on. *)
Remark ping_pong_never_settles : forall fuel (w : World unit),
  @State.settle unit PingPong.behaviour fuel 0 (Some 1) w = None /\
  @State.settle unit PingPong.behaviour fuel 1 (Some 0) w = None.
Proof.
  induction fuel as [| fuel IH]; intro w; split; try reflexivity; simpl.
  - apply IH.
  - apply IH.
Qed.

(** ** The theorems at work on the demo machine *)

Section Runs.
#[local] Existing Instance Demo.behaviour.

(** Two handlers on the idle state with masks 6 and 3 and an event with
    signal 2: the handler registered first is the one invoked. *)
Lemma first_of_two_matching_handlers_runs :
  State.dispatch 1
    (attach_all Demo.objects Demo.IDLE
       [(6%Z, Demo.IDLE, Demo.onStart); (3%Z, Demo.ACTIVE, Demo.onStop)])
    Demo.IDLE (Some (Event.new 7 2)) Demo.quiet =
  Some (Some Demo.ACTIVE,
        {| xif := 0; calls := [Invoked Demo.IDLE Demo.onStart (Event.new 7 2)] |}).
Proof.
  refine (proj1 (proj2
    (dispatch_first_registered_handler Demo.objects Demo.IDLE []
       [(3%Z, Demo.ACTIVE, Demo.onStop)] 6 Demo.IDLE Demo.onStart
       (Event.new 7 2) Demo.quiet 0 _ _ _))).
  - intros h [].
  - intros r [].
  - vm_compute. discriminate.
Defined.

(** A stop event in the innermost state goes to its parent; an unknown
    event at the root is dropped. *)
Lemma stop_bubbles_and_unknown_is_dropped :
  State.dispatch 3 (Hsm.heap Demo.wired) Demo.RUNNING (Some Demo.stop) Demo.quiet =
  State.dispatch 2 (Hsm.heap Demo.wired) Demo.WARMUP (Some Demo.stop) Demo.quiet /\
  State.dispatch 1 (Hsm.heap Demo.wired) Demo.ROOT (Some Demo.unknown) Demo.quiet =
  Some (None, Demo.quiet).
Proof.
  split.
  - refine (proj1 (unmatched_event_goes_to_parent (Hsm.heap Demo.wired)
                     Demo.RUNNING Demo.stop Demo.quiet _) 2).
    intros h [].
  - refine (unmatched_event_goes_to_parent (Hsm.heap Demo.wired)
              Demo.ROOT Demo.unknown Demo.quiet _ 0).
    intros h [].
Defined.

(** An unknown event raised while the machine is running is taken from the
    queue and leaves the machine in the running state. *)
Lemma unknown_event_leaves_machine_running :
  Hsm.dispatchEvents 5 (Hsm.raiseEvent Demo.running Demo.unknown) =
  Some (Demo.RUNNING,
        Hsm.mk (Hsm.this Demo.running) (Hsm.heap Demo.running)
               (Hsm._states Demo.running) [] Demo.RUNNING
               (note (Dispatched Demo.RUNNING Demo.unknown)
                     (Hsm.world Demo.running))).
Proof.
  refine (eq_trans
    (proj2 (proj1 (proj2
       (unmatched_event_has_no_effect (Hsm.raiseEvent Demo.running Demo.unknown)
          Demo.unknown _)) 3 4 _ _) [] _) _).
  - intros a _ h Hin. apply (demo_unknown_unmatched a h Hin).
  - reflexivity.
  - lia.
  - reflexivity.
  - reflexivity.
Defined.

(** Entering the composite active state descends two levels and settles in
    the running state. *)
Lemma composite_entry_settles :
  State.settle 2 Demo.ACTIVE (Some Demo.WARMUP) Demo.quiet =
  Some (Demo.RUNNING,
        {| xif := 2;
           calls := [Exited Demo.ACTIVE; Entered Demo.WARMUP;
                     Exited Demo.WARMUP; Entered Demo.RUNNING] |}).
Proof.
  refine (proj1 (settling_terminates Demo.ACTIVE (Some Demo.WARMUP) Demo.quiet 2 _)
            2 _).
  - reflexivity.
  - lia.
Defined.

(** Three events raised in a row on the settled machine: the drain
    returns, the events are served in the order raised, and each is
    dispatched to the state active at its turn, the start event to the idle
    state and the two others to the running state. *)
Lemma three_events_in_order :
  (exists fuel st m',
     Hsm.dispatchEvents fuel
       (fold_left Hsm.raiseEvent [Demo.start; Demo.unknown; Demo.stop] Demo.settled) =
     Some (st, m')) /\
  (exists trail,
     map snd trail = [Demo.start; Demo.unknown; Demo.stop] /\
     served (Hsm.heap Demo.settled) Demo.IDLE (Hsm.world Demo.settled) trail
            (fst DemoRuns.toured) (Hsm.world (snd DemoRuns.toured)) /\
     dispatched_to (calls (Hsm.world (snd DemoRuns.toured))) =
       dispatched_to (calls (Hsm.world Demo.settled)) ++ trail) /\
  dispatched_to (calls (Hsm.world (snd DemoRuns.toured))) =
    [(Demo.IDLE, Demo.start); (Demo.RUNNING, Demo.unknown);
     (Demo.RUNNING, Demo.stop)].
Proof.
  pose proof (events_are_dispatched_in_raise_order Demo.settled
                [Demo.start; Demo.unknown; Demo.stop]) as [_ [Hiff [_ Hret]]].
  split; [| split].
  - apply Hret; [exact demo_chains_settle | apply demo_rooted; reflexivity].
  - destruct (proj1 (Hiff (fst DemoRuns.toured) (snd DemoRuns.toured))
                (ex_intro _ 6 eq_refl)) as [trail [Hev [Hserved [Hlog _]]]].
    exists trail. repeat split; assumption.
  - reflexivity.
Defined.

(** Draining the machine before any event was raised. *)
Lemma drain_before_any_event :
  Hsm.dispatchEvents 0 Demo.listed = Some (Demo.ROOT, Demo.listed).
Proof.
  refine (drain_of_empty_queue_is_noop Demo.listed _ 0). reflexivity.
Defined.

(** C9 as stated fails: the active state of the demo machine lies
    outside its registry when no state was entered in it, since [init]
    settles on the idle state. *)
Lemma active_state_outside_registry :
  reachable (fun _ => True) Demo.started /\
  Hsm._state Demo.started = Demo.IDLE /\
  Hsm.this Demo.started = Demo.ROOT /\
  Hsm._states Demo.started = [] /\
  (active_known Demo.started -> False).
Proof.
  split; [| repeat split].
  - apply reach_init with (m := Demo.wired) (fuel := 2) (st := Demo.IDLE);
      [| exact I | reflexivity].
    unfold Demo.wired. do 2 apply reach_attach. apply reach_new.
  - intros [H | H]; [discriminate H | exact H].
Qed.

(** With every state in the registry, the running machine has a known
    active state; and so has the bare machine run with application code in
    which only a member function bound to no handler names a state outside
    the registry. *)
Lemma running_machine_active_state_known :
  active_known Demo.running /\ active_known Quiet.started.
Proof.
  split.
  - apply active_state_known_when_bound_targets_registered.
    apply reach_dispatchEvents
      with (m := Hsm.raiseEvent Demo.settled Demo.start) (fuel := 5)
           (st := Demo.RUNNING);
      [| apply registered_covers_targets, demo_registered; reflexivity
       | reflexivity].
    apply reach_raiseEvent.
    apply reach_init with (m := Demo.listed) (fuel := 2) (st := Demo.IDLE);
      [| apply registered_covers_targets, demo_registered; reflexivity
       | reflexivity].
    unfold Demo.listed. simpl.
    do 4 apply reach_attachState.
    unfold Demo.wired. do 2 apply reach_attach. apply reach_new.
  - apply (@active_state_known_when_bound_targets_registered unit Quiet.behaviour).
    apply (@reach_init unit Quiet.behaviour _ DemoRuns.bare 1 0 Quiet.started);
      [apply reach_new | | reflexivity].
    intros r [[s [u [u' H]]] | [s [h [obj [mptr [e [u [u' [Hin _]]]]]]]]].
    + discriminate H.
    + unfold DemoRuns.bare, Hsm.new, State.store in Hin. simpl in Hin.
      destruct (Nat.eqb s 0); contradiction.
Defined.

(** On that bare machine the condition that names every member function
    fails, since the unbound one names state 9. *)
Remark bare_machine_unbound_member_not_registered :
  @registered unit Quiet.behaviour Quiet.started -> False.
Proof.
  intro H. destruct (H 9) as [H9 | []]; [| discriminate H9].
  right. exists 0, 0, Demo.start, tt, tt. reflexivity.
Qed.

(** An event with signal 0 is dropped by the innermost state of the demo
    machine, whose ancestors have handlers. *)
Lemma silent_event_is_dropped :
  State.dispatch 4 (Hsm.heap Demo.wired) Demo.RUNNING (Some Demo.silent) Demo.quiet =
  Some (None, Demo.quiet).
Proof.
  refine (proj1 (proj2 (proj2 (proj2
            (zero_signal_is_never_handled Demo.silent _))))
            3 4 (Hsm.heap Demo.wired) Demo.RUNNING Demo.quiet _ _).
  - reflexivity.
  - reflexivity.
  - lia.
Defined.

(** The scenario of the spec: [init] settles on the idle state; a start
    event leaves it through [exit()] and enters the active state once; a
    stop event leads back. *)
Example init_settles_on_idle :
  Hsm.init 2 Demo.listed =
  Some (Demo.IDLE,
        Hsm.mk Demo.ROOT (Hsm.heap Demo.listed) (Hsm._states Demo.listed) []
               Demo.IDLE
               {| xif := 2;
                  calls := [Entered Demo.ROOT; Exited Demo.ROOT; Entered Demo.IDLE] |}).
Proof. reflexivity. Qed.

(** A stop event in the running state is handled two levels up, by the
    handler of the active state. *)
Example stop_is_handled_by_active :
  State.dispatch 3 (Hsm.heap Demo.wired) Demo.RUNNING (Some Demo.stop) Demo.quiet =
  Some (Some Demo.IDLE,
        {| xif := 0; calls := [Invoked Demo.ACTIVE Demo.onStop Demo.stop] |}).
Proof.
  refine (dispatch_handled_by_ancestor (Hsm.heap Demo.wired) Demo.stop 2
            Demo.RUNNING Demo.ACTIVE
            (EventHandler.mk 2%Z (Some (Demo.ACTIVE, Demo.onStop)))
            _ _ 0 Demo.quiet);
    [| reflexivity].
  apply delegates_up with (p := Demo.WARMUP); [reflexivity | reflexivity |].
  apply delegates_up with (p := Demo.ACTIVE); [reflexivity | reflexivity |].
  apply delegates_here.
Qed.

Example start_then_stop :
  match Hsm.dispatchEvents 5
          (Hsm.raiseEvent (Hsm.raiseEvent Demo.settled Demo.start) Demo.stop) with
  | Some (st, m) => Some (st, skipn 3 (app_calls (calls (Hsm.world m))))
  | None => None
  end =
  Some (Demo.IDLE,
        [Invoked Demo.IDLE Demo.onStart Demo.start;
         Exited Demo.IDLE; Entered Demo.ACTIVE;
         Exited Demo.ACTIVE; Entered Demo.WARMUP;
         Exited Demo.WARMUP; Entered Demo.RUNNING;
         Invoked Demo.ACTIVE Demo.onStop Demo.stop;
         Exited Demo.RUNNING; Entered Demo.IDLE]).
Proof. reflexivity. Qed.

End Runs.

(** * Further properties of the engine *)

(** ** Masks *)

Lemma wrap32_is_mask : forall z, wrap32 z = Z.land z (Z.ones 32).
Proof.
  intro z. unfold wrap32. rewrite Z.land_ones by lia. reflexivity.
Qed.

Lemma wrap32_lor : forall a b, wrap32 (Z.lor a b) = Z.lor (wrap32 a) (wrap32 b).
Proof.
  intros a b. rewrite !wrap32_is_mask. apply Z.land_lor_distr_l.
Qed.

(** X1: one handler registered for the union of two masks matches exactly
    the events that a handler for either mask matches. *)
Theorem union_mask_matches_either :
  forall (h : EventHandler.t) (M1 M2 : Z) (o o1 o2 : StateRef)
         (p p1 p2 : MemberRef) (e : Event.t),
  EventHandler.match_ (EventHandler.attach h (Z.lor M1 M2) o p) e =
  EventHandler.match_ (EventHandler.attach h M1 o1 p1) e ||
  EventHandler.match_ (EventHandler.attach h M2 o2 p2) e.
Proof.
  intros h M1 M2 o o1 o2 p p1 p2 e. unfold EventHandler.match_. simpl.
  rewrite wrap32_lor, Z.land_lor_distr_r.
  destruct (Z.eqb_spec (Z.land (Event.getSig e) (wrap32 M1)) 0) as [E1 | E1];
    destruct (Z.eqb_spec (Z.land (Event.getSig e) (wrap32 M2)) 0) as [E2 | E2];
    destruct (Z.eqb_spec (Z.lor (Z.land (Event.getSig e) (wrap32 M1))
                                (Z.land (Event.getSig e) (wrap32 M2))) 0)
      as [E | E];
    simpl; try reflexivity; exfalso.
  - apply E. rewrite E1, E2. reflexivity.
  - apply Z.lor_eq_0_iff in E. tauto.
  - apply Z.lor_eq_0_iff in E. tauto.
  - apply Z.lor_eq_0_iff in E. tauto.
Qed.

Lemma all_ones_keeps_signal : forall z,
  in_uint32 z -> Z.land z (2 ^ 32 - 1) = z.
Proof.
  intros z Hz. change (2 ^ 32 - 1)%Z with (Z.ones 32).
  rewrite Z.land_ones by lia. apply Z.mod_small. exact Hz.
Qed.

(** ** What a dispatch may call *)

Section DispatchCalls.
Context {U : Type} {B : Behaviour U}.

Lemma search_some : forall hs e h,
  State.search hs e = Some h -> In h hs /\ EventHandler.match_ h e = true.
Proof.
  induction hs as [| h0 hs IH]; intros e h H; simpl in H; [discriminate |].
  destruct (EventHandler.match_ h0 e) eqn:E; simpl in H.
  - injection H as <-. split; [left; reflexivity | exact E].
  - destruct (IH _ _ H) as [Hin Hm]. split; [right; exact Hin | exact Hm].
Qed.

Lemma search_app_keeps_match : forall hs h e h0,
  State.search hs e = Some h0 -> State.search (hs ++ [h]) e = Some h0.
Proof.
  induction hs as [| h1 hs IH]; intros h e h0 H; simpl in *; [discriminate |].
  destruct (EventHandler.match_ h1 e); simpl in *; [exact H | apply IH; exact H].
Qed.

Lemma search_app_unmatched : forall hs h e,
  EventHandler.match_ h e = false ->
  State.search (hs ++ [h]) e = State.search hs e.
Proof.
  induction hs as [| h1 hs IH]; intros h e H; simpl.
  - rewrite H. reflexivity.
  - destruct (EventHandler.match_ h1 e); simpl; [reflexivity | apply IH; exact H].
Qed.

Lemma call_member_calls : forall obj mptr e (w : World U),
  calls (snd (call_member obj mptr e w)) = calls w ++ [Invoked obj mptr e].
Proof.
  intros obj mptr e w. unfold call_member.
  destruct (member mptr obj e (xif w)). reflexivity.
Qed.

(** X2: [dispatch] with an event returns null and leaves the world alone,
    or makes exactly one call into application code: the member bound to a
    handler that matches the event and belongs to the state or to one of
    its ancestors.  It never calls [entry()] or [exit()]. *)
Theorem event_dispatch_calls_one_matching_handler :
  forall fuel hp s e (w : World U) r w',
  State.dispatch fuel hp s (Some e) w = Some (r, w') ->
  (r = None /\ w' = w) \/
  (exists a h obj mptr,
     ancestor hp s a /\ In h (State._handlers (hp a)) /\
     EventHandler.match_ h e = true /\
     EventHandler._handler h = Some (obj, mptr) /\
     call_member obj mptr e w = (r, w') /\
     calls w' = calls w ++ [Invoked obj mptr e]).
Proof.
  induction fuel as [| fuel IH]; intros hp s e w r w' H; simpl in H;
    [discriminate |].
  destruct (State.search (State._handlers (hp s)) e) as [h |] eqn:Hs.
  - destruct (search_some _ _ _ Hs) as [Hin Hm].
    injection H as H. unfold EventHandler.dispatch in H.
    destruct (EventHandler._handler h) as [[obj mptr] |] eqn:Hb.
    + right. exists s, h, obj, mptr. repeat split; auto.
      * constructor.
      * pose proof (call_member_calls obj mptr e w) as Hc.
        rewrite H in Hc. exact Hc.
    + injection H as <- <-. left. split; reflexivity.
  - destruct (State._parent (hp s)) as [p |] eqn:Hp.
    + destruct (IH _ _ _ _ _ _ H) as [Hl | [a [h [obj [mptr [Ha Hrest]]]]]].
      * left. exact Hl.
      * right. exists a, h, obj, mptr. split; [| exact Hrest].
        econstructor; eauto.
    + injection H as <- <-. left. split; reflexivity.
Qed.

(** X3: [dispatch] with an event returns exactly when the parent chain,
    followed past the states without a matching handler, comes to a state
    that has one or to a state without a parent.  On a cyclic chain without
    a matching handler it never returns. *)
Theorem event_dispatch_returns_iff_chain_ends :
  forall hp s e (w : World U),
  (exists fuel r, State.dispatch fuel hp s (Some e) w = Some r) <->
  (exists k a,
     delegates hp e k s a /\
     (State.search (State._handlers (hp a)) e <> None \/
      State._parent (hp a) = None)).
Proof.
  intros hp s e w. split.
  - intros [fuel [r H]]. revert s r H.
    induction fuel as [| fuel IH]; intros s r H; simpl in H; [discriminate |].
    destruct (State.search (State._handlers (hp s)) e) as [h |] eqn:Hs.
    + exists 0, s. split; [constructor | left; congruence].
    + destruct (State._parent (hp s)) as [p |] eqn:Hp.
      * destruct (IH _ _ H) as [k [a [Hd Hend]]].
        exists (S k), a. split; [econstructor; eauto | exact Hend].
      * exists 0, s. split; [constructor | right; exact Hp].
  - intros [k [a [Hd Hend]]].
    exists (k + 1).
    rewrite (dispatch_bubbles_up _ _ _ _ _ Hd). simpl.
    destruct (State.search (State._handlers (hp a)) e) as [h |]; eauto.
    destruct Hend as [Hend | Hend]; [congruence |].
    rewrite Hend. eauto.
Qed.

(** ** What [attach] changes *)

Lemma ancestor_of_parent : forall hp s p a,
  State._parent (hp s) = Some p -> ancestor hp p a -> ancestor hp s a.
Proof.
  intros. econstructor; eauto.
Qed.

(** X4: a handler attached to a state changes nothing for the states that
    do not have that state on their parent chain: their [dispatch] is the
    same for every event, the null event included. *)
Theorem attach_leaves_other_chains_alone :
  forall fuel hp s signal tptr mptr x e (w : World U),
  (forall a, ancestor hp x a -> a <> s) ->
  State.dispatch fuel (State.attach_at hp s signal tptr mptr) x e w =
  State.dispatch fuel hp x e w.
Proof.
  induction fuel as [| fuel IH]; intros hp s signal tptr mptr x e w Hoff; simpl;
    [reflexivity |].
  destruct e as [ev |]; [| reflexivity].
  assert (Hx : State.attach_at hp s signal tptr mptr x = hp x).
  { unfold State.attach_at. apply store_other. apply Hoff. constructor. }
  rewrite Hx.
  destruct (State.search (State._handlers (hp x)) ev); [reflexivity |].
  destruct (State._parent (hp x)) as [p |] eqn:Hp; [| reflexivity].
  apply IH. intros a Ha. apply Hoff. eapply ancestor_of_parent; eauto.
Qed.

(** X5: a handler attached to a state is invisible to an event when its
    mask does not intersect the signal, or when a handler attached there
    before already matches the event: [dispatch] of that event is the
    same on every state. *)
Theorem attach_behind_or_beside_is_invisible :
  forall fuel hp s signal tptr mptr x e (w : World U),
  Z.land (Event.getSig e) (wrap32 signal) = 0%Z \/
  (exists h, In h (State._handlers (hp s)) /\ EventHandler.match_ h e = true) ->
  State.dispatch fuel (State.attach_at hp s signal tptr mptr) x (Some e) w =
  State.dispatch fuel hp x (Some e) w.
Proof.
  intros fuel hp s signal tptr mptr x e w Hinv. revert x.
  assert (Hsearch : forall x,
            State.search (State._handlers (State.attach_at hp s signal tptr mptr x)) e =
            State.search (State._handlers (hp x)) e).
  { intro x. unfold State.attach_at, State.store.
    destruct (Nat.eqb_spec x s) as [-> | Hx]; [| reflexivity].
    rewrite attach_appends.
    destruct Hinv as [Hz | [h [Hin Hm]]].
    - apply search_app_unmatched. apply match_false_iff. exact Hz.
    - destruct (State.search (State._handlers (hp s)) e) as [h0 |] eqn:Hs.
      + apply search_app_keeps_match. exact Hs.
      + rewrite search_none_iff in Hs. rewrite (Hs h Hin) in Hm. discriminate. }
  assert (Hparent : forall x,
            State._parent (State.attach_at hp s signal tptr mptr x) =
            State._parent (hp x)).
  { intro x. unfold State.attach_at, State.store.
    destruct (Nat.eqb_spec x s) as [-> | Hx]; reflexivity. }
  induction fuel as [| fuel IH]; intro x; simpl; [reflexivity |].
  rewrite Hsearch, Hparent.
  destruct (State.search (State._handlers (hp x)) e); [reflexivity |].
  destruct (State._parent (hp x)) as [p |]; [apply IH | reflexivity].
Qed.

(** X6: with a handler for the mask of all ones on an ancestor, no event
    with a signal other than 0 falls through: when no state below that
    ancestor handles the event, a handler of the ancestor is invoked. *)
Theorem catch_all_handler_takes_what_is_left :
  forall hp s root k e h (w : World U),
  delegates hp e k s root ->
  In h (State._handlers (hp root)) ->
  EventHandler._sig h = (2 ^ 32 - 1)%Z ->
  in_uint32 (Event.getSig e) ->
  Event.getSig e <> 0%Z ->
  exists h',
    In h' (State._handlers (hp root)) /\ EventHandler.match_ h' e = true /\
    forall fuel,
      State.dispatch (k + S fuel) hp s (Some e) w =
      Some (EventHandler.dispatch h' e w).
Proof.
  intros hp s root k e h w Hdel Hin Hall Hrange Hnz.
  assert (Hm : EventHandler.match_ h e = true).
  { apply match_true_iff. rewrite Hall, all_ones_keeps_signal; assumption. }
  destruct (State.search (State._handlers (hp root)) e) as [h' |] eqn:Hs.
  - destruct (search_some _ _ _ Hs) as [Hin' Hm'].
    exists h'. repeat split; auto.
    intro fuel. apply dispatch_handled_by_ancestor with (a := root); assumption.
  - rewrite search_none_iff in Hs. rewrite (Hs h Hin) in Hm. discriminate.
Qed.

End DispatchCalls.

(** ** The machine in service *)

Section ServiceFacts.
Context {U : Type} {B : Behaviour U}.

Lemma handle_ignores_registry : forall fuel (m : Hsm.t U) st ev,
  Hsm.handle fuel (Hsm.attachState m st) ev =
  option_map (fun m1 => Hsm.attachState m1 st) (Hsm.handle fuel m ev).
Proof.
  intros fuel m st ev. unfold Hsm.handle. simpl.
  destruct (State.dispatch fuel (Hsm.heap m) (Hsm._state m) (Some ev)
              (note (Dispatched (Hsm._state m) ev) (Hsm.world m)))
    as [[next w1] |]; [| reflexivity].
  destruct (State.settle fuel (Hsm._state m) next w1) as [[s w2] |]; reflexivity.
Qed.

(** X7: the registry plays no part in running the machine: [init] and
    [dispatchEvents] give the same active state, queue and world whether a
    state was registered with [attachState] before or after. *)
Theorem attachState_commutes_with_running :
  forall fuel (m : Hsm.t U) st,
  Hsm.init fuel (Hsm.attachState m st) =
    option_map (fun r => (fst r, Hsm.attachState (snd r) st)) (Hsm.init fuel m) /\
  Hsm.dispatchEvents fuel (Hsm.attachState m st) =
    option_map (fun r => (fst r, Hsm.attachState (snd r) st))
               (Hsm.dispatchEvents fuel m).
Proof.
  intros fuel m st. split.
  - unfold Hsm.init. simpl.
    destruct (State.dispatch fuel (Hsm.heap m) (Hsm.this m) None (Hsm.world m))
      as [[next w] |]; reflexivity.
  - revert m. induction fuel as [| fuel IH]; intro m; simpl;
      destruct (List_.getFirstItem (Hsm._events m)) as [ev |]; try reflexivity.
    rewrite handle_ignores_registry.
    destruct (Hsm.handle fuel m ev) as [m1 |]; simpl; [| reflexivity].
    apply (IH (Hsm.mk (Hsm.this m1) (Hsm.heap m1) (Hsm._states m1)
                      (List_.removeItem Event.same (Hsm._events m1) ev)
                      (Hsm._state m1) (Hsm.world m1))).
Qed.

(** X8: [init] returns exactly when the entry processing started on the
    machine itself settles; the state it returns is the settled state,
    which it stores as the active state, whatever the active state was; the
    queue, the registry and the objects are left as they were. *)
Theorem init_settles_entry_chain_of_machine :
  forall (m : Hsm.t U) st m',
  (exists fuel, Hsm.init fuel m = Some (st, m')) <->
  entry_chain (Hsm.this m) (Hsm.world m) st (Hsm.world m') /\
  m' = Hsm.mk (Hsm.this m) (Hsm.heap m) (Hsm._states m) (Hsm._events m) st
              (Hsm.world m').
Proof.
  intros m st m'. split.
  - intros [fuel H]. unfold Hsm.init in H.
    destruct fuel as [| fuel]; simpl in H; [discriminate |].
    destruct (call_entry (Hsm.this m) (Hsm.world m)) as [next w1] eqn:E.
    destruct (State.settle fuel (Hsm.this m) next w1) as [[st1 w2] |] eqn:Es;
      [| discriminate].
    injection H as <- <-. simpl. split; [| reflexivity].
    eapply settle_sound; eauto.
  - intros [Hchain ->]. simpl in Hchain.
    destruct (settle_complete _ _ _ _ Hchain) as [fuel Hf].
    exists (S fuel). unfold Hsm.init. simpl.
    destruct (call_entry (Hsm.this m) (Hsm.world m)) as [next w1].
    simpl in Hf. rewrite Hf. reflexivity.
Qed.

Lemma settle_on_self : forall fuel st (w : World U),
  State.settle fuel st (Some st) w = Some (st, w).
Proof.
  intros [| fuel] st w; simpl; rewrite Nat.eqb_refl; reflexivity.
Qed.

(** X9: a handler that returns the active state itself makes no
    transition: handling the event calls the handler, found on the active
    state or up its parent chain, and nothing else, neither [exit()] nor
    [entry()], and the state stays active. *)
Theorem transition_to_self_skips_exit_and_entry :
  forall (m : Hsm.t U) ev k a h obj mptr u' fuel,
  delegates (Hsm.heap m) ev k (Hsm._state m) a ->
  State.search (State._handlers (Hsm.heap m a)) ev = Some h ->
  EventHandler._handler h = Some (obj, mptr) ->
  member mptr obj ev (xif (Hsm.world m)) = (Some (Hsm._state m), u') ->
  Hsm.handle (k + S fuel) m ev =
  Some (Hsm.mk (Hsm.this m) (Hsm.heap m) (Hsm._states m) (Hsm._events m)
               (Hsm._state m)
               {| xif := u';
                  calls := calls (Hsm.world m) ++
                           [Dispatched (Hsm._state m) ev; Invoked obj mptr ev] |}).
Proof.
  intros m ev k a h obj mptr u' fuel Hdel Hs Hb Hm. unfold Hsm.handle.
  rewrite (dispatch_handled_by_ancestor _ _ _ _ _ _ Hdel Hs).
  unfold EventHandler.dispatch. rewrite Hb.
  unfold call_member. simpl. rewrite Hm.
  rewrite settle_on_self, <- app_assoc. reflexivity.
Qed.

(** X13: a handler that returns another state, whose [entry()] then
    returns null or that state, makes one transition: handling the event
    calls the handler, then [exit()] of the active state, then [entry()]
    of the new state, each once and in this order, and the new state is
    active. *)
Theorem transition_exits_then_enters_once :
  forall (m : Hsm.t U) ev k a h obj mptr t u1 next u2 fuel,
  delegates (Hsm.heap m) ev k (Hsm._state m) a ->
  State.search (State._handlers (Hsm.heap m a)) ev = Some h ->
  EventHandler._handler h = Some (obj, mptr) ->
  member mptr obj ev (xif (Hsm.world m)) = (Some t, u1) ->
  t <> Hsm._state m ->
  entry t (exit (Hsm._state m) u1) = (next, u2) ->
  next = None \/ next = Some t ->
  Hsm.handle (k + S fuel) m ev =
  Some (Hsm.mk (Hsm.this m) (Hsm.heap m) (Hsm._states m) (Hsm._events m) t
               {| xif := u2;
                  calls := calls (Hsm.world m) ++
                           [Dispatched (Hsm._state m) ev; Invoked obj mptr ev;
                            Exited (Hsm._state m); Entered t] |}).
Proof.
  intros m ev k a h obj mptr t u1 next u2 fuel Hdel Hs Hb Hm Ht He Hnext.
  unfold Hsm.handle.
  rewrite (dispatch_handled_by_ancestor _ _ _ _ _ _ Hdel Hs).
  unfold EventHandler.dispatch. rewrite Hb.
  unfold call_member. simpl. rewrite Hm.
  rewrite Nat.add_succ_r. simpl.
  apply Nat.eqb_neq in Ht. rewrite Ht.
  unfold call_entry, call_exit. simpl. rewrite He.
  assert (Hsettle : forall w, State.settle (k + fuel) t next w = Some (t, w)).
  { intro w. destruct Hnext as [-> | ->];
      [apply settle_nothing_pending | apply settle_on_self]. }
  rewrite Hsettle, <- !app_assoc. reflexivity.
Qed.

Lemma lifecycle_app : forall a b cur,
  lifecycle cur (a ++ b) =
  match lifecycle cur a with
  | Some c => lifecycle c b
  | None => None
  end.
Proof.
  induction a as [| c a IH]; intros b cur; simpl; [reflexivity |].
  destruct c; try apply IH.
  - destruct cur; [reflexivity | apply IH].
  - destruct cur as [c0 |]; [| reflexivity].
    destruct (Nat.eqb c0 s); [apply IH | reflexivity].
Qed.

Lemma call_entry_calls : forall s (w : World U) next w',
  call_entry s w = (next, w') -> calls w' = calls w ++ [Entered s].
Proof.
  intros s w next w' H. unfold call_entry in H.
  destruct (entry s (xif w)). injection H as _ <-. reflexivity.
Qed.

Lemma settle_lifecycle : forall fuel st next (w : World U) st' w' c0,
  State.settle fuel st next w = Some (st', w') ->
  lifecycle c0 (calls w) = Some (Some st) ->
  lifecycle c0 (calls w') = Some (Some st').
Proof.
  induction fuel as [| fuel IH]; intros st next w st' w' c0 H Hl;
    destruct next as [n |]; simpl in H;
    try (destruct (Nat.eqb n st)); try discriminate;
    try (injection H as <- <-; exact Hl).
  destruct (call_entry n (call_exit st w)) as [next' w2] eqn:E.
  apply IH with (c0 := c0) in H; [exact H |].
  rewrite (call_entry_calls _ _ _ _ E). simpl.
  rewrite !lifecycle_app, Hl. simpl. rewrite Nat.eqb_refl. reflexivity.
Qed.

Lemma dispatch_event_lifecycle : forall fuel hp s e (w : World U) r w' c0,
  State.dispatch fuel hp s (Some e) w = Some (r, w') ->
  lifecycle c0 (calls w') = lifecycle c0 (calls w).
Proof.
  induction fuel as [| fuel IH]; intros hp s e w r w' c0 H; simpl in H;
    [discriminate |].
  destruct (State.search (State._handlers (hp s)) e) as [h |].
  - injection H as H. unfold EventHandler.dispatch in H.
    destruct (EventHandler._handler h) as [[obj mptr] |].
    + pose proof (call_member_calls obj mptr e w) as Hc. rewrite H in Hc.
      simpl in Hc. rewrite Hc, lifecycle_app.
      destruct (lifecycle c0 (calls w)); reflexivity.
    + injection H as _ <-. reflexivity.
  - destruct (State._parent (hp s)) as [p |].
    + eapply IH; eauto.
    + injection H as _ <-. reflexivity.
Qed.

Lemma handle_lifecycle : forall fuel (m : Hsm.t U) ev m1,
  Hsm.handle fuel m ev = Some m1 ->
  lifecycle None (calls (Hsm.world m)) = Some (Some (Hsm._state m)) ->
  lifecycle None (calls (Hsm.world m1)) = Some (Some (Hsm._state m1)).
Proof.
  intros fuel m ev m1 H Hl. split_handle H Ed Es.
  injection H as <-. simpl.
  apply (settle_lifecycle _ _ _ _ _ _ _ Es).
  rewrite (dispatch_event_lifecycle _ _ _ _ _ _ _ _ Ed). simpl.
  rewrite lifecycle_app, Hl. reflexivity.
Qed.

Lemma dispatchEvents_lifecycle : forall fuel (m : Hsm.t U) st m',
  Hsm.dispatchEvents fuel m = Some (st, m') ->
  lifecycle None (calls (Hsm.world m)) = Some (Some (Hsm._state m)) ->
  lifecycle None (calls (Hsm.world m')) = Some (Some (Hsm._state m')).
Proof.
  induction fuel as [| fuel IH]; intros m st m' H Hl; simpl in H;
    destruct (List_.getFirstItem (Hsm._events m)) as [ev |];
    try discriminate; try (injection H as _ <-; exact Hl).
  destruct (Hsm.handle fuel m ev) as [m1 |] eqn:Eh; [| discriminate].
  apply IH in H; [exact H |]. simpl.
  eapply handle_lifecycle; eauto.
Qed.

Lemma entry_and_exit_alternate_on_active_state_aux :
  forall (m : Hsm.t U),
  in_service m ->
  lifecycle None (calls (Hsm.world m)) = Some (Some (Hsm._state m)).
Proof.
  intros m Hs.
  induction Hs as
    [ m fuel st m' Hquiet Hinit
    | m s signal tptr mptr _ IH
    | m st _ IH
    | m e _ IH
    | m fuel st m' _ IH Hrun ]; simpl; try exact IH.
  - unfold Hsm.init in Hinit.
    destruct fuel as [| fuel]; simpl in Hinit; [discriminate |].
    destruct (call_entry (Hsm.this m) (Hsm.world m)) as [next w1] eqn:E.
    destruct (State.settle fuel (Hsm.this m) next w1) as [[st1 w2] |] eqn:Es;
      [| discriminate].
    injection Hinit as _ <-. simpl.
    apply (settle_lifecycle _ _ _ _ _ _ _ Es).
    rewrite (call_entry_calls _ _ _ _ E), lifecycle_app, Hquiet. reflexivity.
  - eapply dispatchEvents_lifecycle; eauto.
Qed.

(** X10: once [init] has run, the calls of [entry()] and [exit()] keep to
    their protocol through every later [attach], [attachState],
    [raiseEvent] and [dispatchEvents]: [exit()] is only called on the
    state entered last, a state is only entered after the one before was
    exited, and the active state is the state entered last. *)
Theorem entry_and_exit_alternate_on_active_state :
  forall (m : Hsm.t U),
  in_service m ->
  lifecycle None (calls (Hsm.world m)) = Some (Some (Hsm._state m)).
Proof.
  exact entry_and_exit_alternate_on_active_state_aux.
Qed.

Lemma settle_appends : forall fuel st next (w : World U) st' w',
  State.settle fuel st next w = Some (st', w') ->
  exists more, calls w' = calls w ++ more.
Proof.
  induction fuel as [| fuel IH]; intros st next w st' w' H;
    destruct next as [n |]; simpl in H;
    try (destruct (Nat.eqb n st)); try discriminate;
    try (injection H as _ <-; exists []; rewrite app_nil_r; reflexivity).
  destruct (call_entry n (call_exit st w)) as [next' w2] eqn:E.
  destruct (IH _ _ _ _ _ H) as [more Hmore].
  exists ([Exited st; Entered n] ++ more).
  rewrite Hmore, (call_entry_calls _ _ _ _ E). simpl.
  rewrite <- !app_assoc. reflexivity.
Qed.

(** X14: [init] does not exit the active state: called again on a machine
    in service, it enters the machine itself while the active state is
    still entered, which breaks the protocol of [entry()] and [exit()]. *)
Theorem second_init_enters_without_exit :
  forall (m : Hsm.t U) fuel st m',
  in_service m ->
  Hsm.init fuel m = Some (st, m') ->
  lifecycle None (calls (Hsm.world m')) = None /\
  exists more,
    calls (Hsm.world m') = calls (Hsm.world m) ++ Entered (Hsm.this m) :: more.
Proof.
  intros m fuel st m' Hs Hinit.
  pose proof (entry_and_exit_alternate_on_active_state_aux m Hs) as Hl.
  unfold Hsm.init in Hinit.
  destruct fuel as [| fuel]; simpl in Hinit; [discriminate |].
  destruct (call_entry (Hsm.this m) (Hsm.world m)) as [next w1] eqn:E.
  destruct (State.settle fuel (Hsm.this m) next w1) as [[st1 w2] |] eqn:Es;
    [| discriminate].
  injection Hinit as _ <-. simpl.
  destruct (settle_appends _ _ _ _ _ _ Es) as [more Hmore].
  rewrite (call_entry_calls _ _ _ _ E) in Hmore.
  rewrite <- app_assoc in Hmore. simpl in Hmore.
  split; [| exists more; exact Hmore].
  rewrite Hmore, lifecycle_app, Hl. reflexivity.
Qed.

Lemma handle_ignores_queue : forall fuel (m : Hsm.t U) q ev,
  Hsm.handle fuel (queue_of m q) ev =
  option_map (fun m1 => queue_of m1 q) (Hsm.handle fuel m ev).
Proof.
  intros fuel m q ev. unfold Hsm.handle. simpl.
  destruct (State.dispatch fuel (Hsm.heap m) (Hsm._state m) (Some ev)
              (note (Dispatched (Hsm._state m) ev) (Hsm.world m)))
    as [[next w1] |]; [| reflexivity].
  destruct (State.settle fuel (Hsm._state m) next w1) as [[s w2] |]; reflexivity.
Qed.

Lemma raise_all_queue : forall evs (m : Hsm.t U),
  fold_left Hsm.raiseEvent evs m = queue_of m (Hsm._events m ++ evs).
Proof.
  induction evs as [| e evs IH]; intro m; simpl.
  - rewrite app_nil_r. destruct m; reflexivity.
  - rewrite IH. unfold queue_of, Hsm.raiseEvent, List_.addItem. simpl.
    rewrite <- app_assoc. reflexivity.
Qed.

Lemma drain_step : forall fuel (m : Hsm.t U) ev q,
  Hsm.dispatchEvents (S fuel) (queue_of m (ev :: q)) =
  match Hsm.handle fuel m ev with
  | Some m1 => Hsm.dispatchEvents fuel (queue_of m1 q)
  | None => None
  end.
Proof.
  intros fuel m ev q. simpl. rewrite handle_ignores_queue.
  destruct (Hsm.handle fuel m ev) as [m1 |]; simpl; [| reflexivity].
  rewrite same_refl. reflexivity.
Qed.

Lemma drain_splits : forall q1 q2 fuel (m : Hsm.t U) r,
  Hsm.dispatchEvents fuel (queue_of m (q1 ++ q2)) = Some r ->
  exists st1 m1,
    Hsm.dispatchEvents fuel (queue_of m q1) = Some (st1, m1) /\
    Hsm.dispatchEvents fuel (queue_of m1 q2) = Some r.
Proof.
  induction q1 as [| ev q1 IH]; intros q2 fuel m r H.
  - exists (Hsm._state m), (queue_of m []). split.
    + destruct fuel; reflexivity.
    + exact H.
  - destruct fuel as [| fuel]; [discriminate |].
    simpl app in H. rewrite drain_step in *.
    destruct (Hsm.handle fuel m ev) as [m1 |]; [| discriminate].
    destruct (IH _ _ _ _ H) as [st1 [m2 [H1 H2]]].
    exists st1, m2. split; [exact H1 |].
    apply dispatchEvents_more_fuel with (fuel := fuel); [exact H2 | lia].
Qed.

Lemma drain_joins : forall q1 q2 f1 f2 (m : Hsm.t U) st1 m1 r,
  Hsm.dispatchEvents f1 (queue_of m q1) = Some (st1, m1) ->
  Hsm.dispatchEvents f2 (queue_of m1 q2) = Some r ->
  Hsm.dispatchEvents (f1 + f2) (queue_of m (q1 ++ q2)) = Some r.
Proof.
  induction q1 as [| ev q1 IH]; intros q2 f1 f2 m st1 m1 r H1 H2.
  - assert (Hm : m1 = queue_of m []).
    { destruct f1; simpl in H1; injection H1 as _ <-; reflexivity. }
    subst m1. simpl app.
    apply dispatchEvents_more_fuel with (fuel := f2); [exact H2 | lia].
  - destruct f1 as [| f1]; [discriminate |].
    simpl app. change (S f1 + f2) with (S (f1 + f2)).
    rewrite drain_step in *.
    destruct (Hsm.handle f1 m ev) as [m2 |] eqn:Eh; [| discriminate].
    rewrite (handle_more_fuel _ _ _ _ Eh (f1 + f2)) by lia.
    eapply IH; eauto.
Qed.

(** X11: draining does not depend on how the events were batched: raising
    two runs of events and draining once ends as draining after the first
    run and again after the second. *)
Theorem drain_in_batches :
  forall (m : Hsm.t U) (q1 q2 : list Event.t) r,
  Hsm._events m = [] ->
  ((exists fuel,
      Hsm.dispatchEvents fuel
        (fold_left Hsm.raiseEvent q2 (fold_left Hsm.raiseEvent q1 m)) = Some r) <->
   (exists fuel1 st1 m1,
      Hsm.dispatchEvents fuel1 (fold_left Hsm.raiseEvent q1 m) = Some (st1, m1) /\
      exists fuel2,
        Hsm.dispatchEvents fuel2 (fold_left Hsm.raiseEvent q2 m1) = Some r)).
Proof.
  intros m q1 q2 r Hq.
  assert (Hboth : fold_left Hsm.raiseEvent q2 (fold_left Hsm.raiseEvent q1 m) =
                  queue_of m (q1 ++ q2)).
  { rewrite !raise_all_queue. simpl. rewrite Hq. reflexivity. }
  assert (Hone : fold_left Hsm.raiseEvent q1 m = queue_of m q1).
  { rewrite raise_all_queue, Hq. reflexivity. }
  rewrite Hboth, Hone. split.
  - intros [fuel H].
    destruct (drain_splits _ _ _ _ _ H) as [st1 [m1 [H1 H2]]].
    exists fuel, st1, m1. split; [exact H1 |]. exists fuel.
    rewrite raise_all_queue.
    destruct (dispatchEvents_order _ _ _ _ H1) as [_ [He _]].
    rewrite He. exact H2.
  - intros [f1 [st1 [m1 [H1 [f2 H2]]]]].
    exists (f1 + f2). eapply drain_joins; [exact H1 |].
    rewrite raise_all_queue in H2.
    destruct (dispatchEvents_order _ _ _ _ H1) as [_ [He _]].
    rewrite He in H2. exact H2.
Qed.

Lemma bare_state_drops_queue : forall q (m : Hsm.t U),
  State._handlers (Hsm.heap m (Hsm._state m)) = [] ->
  State._parent (Hsm.heap m (Hsm._state m)) = None ->
  Hsm.dispatchEvents (S (length q)) (queue_of m q) =
  Some (Hsm._state m,
        Hsm.mk (Hsm.this m) (Hsm.heap m) (Hsm._states m) [] (Hsm._state m)
               {| xif := xif (Hsm.world m);
                  calls := calls (Hsm.world m) ++
                           map (Dispatched (Hsm._state m)) q |}).
Proof.
  induction q as [| ev q IH]; intros m Hh Hp.
  - simpl. rewrite app_nil_r. destruct m as [t h ss es s [u cs]]. reflexivity.
  - change (length (ev :: q)) with (S (length q)).
    rewrite (unmatched_drain_step 0 (S (length q)) (queue_of m (ev :: q)) ev q).
    + pose proof (IH (Hsm.mk (Hsm.this m) (Hsm.heap m) (Hsm._states m) []
                             (Hsm._state m)
                             (note (Dispatched (Hsm._state m) ev) (Hsm.world m)))
                     Hh Hp) as H.
      unfold queue_of in *. simpl in *. rewrite H, <- app_assoc. reflexivity.
    + simpl. intros a Ha h Hin.
      inversion Ha as [s0 | s0 p a0 Hpar _]; subst.
      * rewrite Hh in Hin. contradiction.
      * rewrite Hp in Hpar. discriminate.
    + simpl. rewrite Hp. reflexivity.
    + lia.
    + reflexivity.
Qed.

(** X12: a machine that was just constructed without a parent, and to
    which no handler was attached, drops every event raised: draining
    empties the queue, returns the machine itself as the active state and
    calls no application code. *)
Theorem fresh_machine_drops_every_event :
  forall at_ hp (w : World U) (evs : list Event.t),
  Hsm.dispatchEvents (S (length evs))
    (fold_left Hsm.raiseEvent evs (Hsm.new at_ None hp w)) =
  Some (at_,
        Hsm.mk at_ (Hsm.heap (Hsm.new at_ None hp w)) [] [] at_
               {| xif := xif w;
                  calls := calls w ++ map (Dispatched at_) evs |}).
Proof.
  intros at_ hp w evs. rewrite raise_all_queue.
  pose proof (bare_state_drops_queue evs (Hsm.new at_ None hp w)) as H.
  simpl in H. rewrite store_same in H. apply H; reflexivity.
Qed.

End ServiceFacts.

(** ** The further properties at work on the demo machine *)

Section MoreRuns.
#[local] Existing Instance Demo.behaviour.

Lemma demo_running_ancestors : forall a,
  ancestor (Hsm.heap Demo.wired) Demo.RUNNING a ->
  a = Demo.RUNNING \/ a = Demo.WARMUP \/ a = Demo.ACTIVE \/ a = Demo.ROOT.
Proof.
  intros a H.
  inversion H as [s0 | s0 p a0 Hp H1]; subst; [tauto |].
  injection Hp as <-.
  inversion H1 as [s0 | s0 p a0 Hp H2]; subst; [tauto |].
  injection Hp as <-.
  inversion H2 as [s0 | s0 p a0 Hp H3]; subst; [tauto |].
  injection Hp as <-.
  inversion H3 as [s0 | s0 p a0 Hp H4]; subst; [tauto |].
  discriminate Hp.
Qed.

Lemma demo_unknown_falls_to_root :
  delegates (Hsm.heap DemoRuns.catching) Demo.unknown 3 Demo.RUNNING Demo.ROOT.
Proof.
  apply delegates_up with (p := Demo.WARMUP); [reflexivity | reflexivity |].
  apply delegates_up with (p := Demo.ACTIVE); [reflexivity | reflexivity |].
  apply delegates_up with (p := Demo.ROOT); [reflexivity | reflexivity |].
  apply delegates_here.
Qed.

Lemma demo_running_in_service : in_service Demo.running.
Proof.
  apply service_dispatchEvents
    with (m := Hsm.raiseEvent Demo.settled Demo.start) (fuel := 5)
         (st := Demo.RUNNING); [| reflexivity].
  apply service_raiseEvent.
  apply service_init with (m := Demo.listed) (fuel := 2) (st := Demo.IDLE);
    reflexivity.
Qed.

(** A stop event dispatched on the running state makes one call, to the
    handler of the active state two levels up. *)
Lemma stop_on_running_calls_one_handler :
  (Some Demo.IDLE = None /\
   {| xif := 0; calls := [Invoked Demo.ACTIVE Demo.onStop Demo.stop] |} = Demo.quiet) \/
  (exists a h obj mptr,
     ancestor (Hsm.heap Demo.wired) Demo.RUNNING a /\
     In h (State._handlers (Hsm.heap Demo.wired a)) /\
     EventHandler.match_ h Demo.stop = true /\
     EventHandler._handler h = Some (obj, mptr) /\
     call_member obj mptr Demo.stop Demo.quiet =
       (Some Demo.IDLE,
        {| xif := 0; calls := [Invoked Demo.ACTIVE Demo.onStop Demo.stop] |}) /\
     calls {| xif := 0; calls := [Invoked Demo.ACTIVE Demo.onStop Demo.stop] |} =
       calls Demo.quiet ++ [Invoked obj mptr Demo.stop]).
Proof.
  refine (event_dispatch_calls_one_matching_handler 3 (Hsm.heap Demo.wired)
            Demo.RUNNING Demo.stop Demo.quiet (Some Demo.IDLE)
            {| xif := 0; calls := [Invoked Demo.ACTIVE Demo.onStop Demo.stop] |} _).
  reflexivity.
Defined.

(** A handler attached to the idle state changes nothing for the running
    state, which is not below it. *)
Lemma attach_on_idle_leaves_running_alone :
  State.dispatch 3
    (State.attach_at (Hsm.heap Demo.wired) Demo.IDLE Demo.SIG_STOP Demo.IDLE
                     Demo.onStart)
    Demo.RUNNING (Some Demo.stop) Demo.quiet =
  State.dispatch 3 (Hsm.heap Demo.wired) Demo.RUNNING (Some Demo.stop) Demo.quiet.
Proof.
  refine (attach_leaves_other_chains_alone 3 (Hsm.heap Demo.wired) Demo.IDLE
            Demo.SIG_STOP Demo.IDLE Demo.onStart Demo.RUNNING (Some Demo.stop)
            Demo.quiet _).
  intros a Ha.
  destruct (demo_running_ancestors a Ha) as [-> | [-> | [-> | ->]]];
    discriminate.
Defined.

(** A second handler for the stop signal on the active state stays behind
    the first one. *)
Lemma second_stop_handler_is_shadowed :
  State.dispatch 3
    (State.attach_at (Hsm.heap Demo.wired) Demo.ACTIVE Demo.SIG_STOP Demo.ACTIVE
                     Demo.onStart)
    Demo.RUNNING (Some Demo.stop) Demo.quiet =
  State.dispatch 3 (Hsm.heap Demo.wired) Demo.RUNNING (Some Demo.stop) Demo.quiet.
Proof.
  refine (attach_behind_or_beside_is_invisible 3 (Hsm.heap Demo.wired)
            Demo.ACTIVE Demo.SIG_STOP Demo.ACTIVE Demo.onStart Demo.RUNNING
            Demo.stop Demo.quiet _).
  right. exists (EventHandler.mk 2%Z (Some (Demo.ACTIVE, Demo.onStop))).
  split; [left; reflexivity | reflexivity].
Defined.

(** With a handler for every signal on the root, the unknown event raised
    in the running state reaches a handler of the root. *)
Lemma unknown_event_is_caught_at_root :
  exists h',
    In h' (State._handlers (Hsm.heap DemoRuns.catching Demo.ROOT)) /\
    EventHandler.match_ h' Demo.unknown = true /\
    forall fuel,
      State.dispatch (3 + S fuel) (Hsm.heap DemoRuns.catching) Demo.RUNNING
        (Some Demo.unknown) Demo.quiet =
      Some (EventHandler.dispatch h' Demo.unknown Demo.quiet).
Proof.
  refine (catch_all_handler_takes_what_is_left (Hsm.heap DemoRuns.catching)
            Demo.RUNNING Demo.ROOT 3 Demo.unknown
            (EventHandler.mk (2 ^ 32 - 1)%Z (Some (Demo.ROOT, Demo.onStop)))
            Demo.quiet demo_unknown_falls_to_root _ _ _ _).
  - left. reflexivity.
  - reflexivity.
  - vm_compute. split; [discriminate | reflexivity].
  - vm_compute. discriminate.
Defined.

(** A stop event on the steady machine, whose idle state answers it with
    itself: the handler is called and nothing else. *)
Lemma stop_on_steady_machine_stays_idle :
  Hsm.handle 1 DemoRuns.steady Demo.stop =
  Some (Hsm.mk Demo.ROOT (Hsm.heap DemoRuns.steady) (Hsm._states DemoRuns.steady)
               [] Demo.IDLE
               {| xif := 2;
                  calls := [Entered Demo.ROOT; Exited Demo.ROOT; Entered Demo.IDLE;
                            Dispatched Demo.IDLE Demo.stop;
                            Invoked Demo.IDLE Demo.onStop Demo.stop] |}).
Proof.
  refine (transition_to_self_skips_exit_and_entry DemoRuns.steady Demo.stop 0
            Demo.IDLE (EventHandler.mk 2%Z (Some (Demo.IDLE, Demo.onStop)))
            Demo.IDLE Demo.onStop 2 0 _ _ _ _).
  - apply delegates_here.
  - reflexivity.
  - reflexivity.
  - reflexivity.
Defined.

(** A stop event on the running machine: the handler of the active state,
    then [exit()] of the running state, then [entry()] of the idle
    state. *)
Lemma stop_on_running_machine_goes_idle :
  Hsm.handle 3 Demo.running Demo.stop =
  Some (Hsm.mk Demo.ROOT (Hsm.heap Demo.running) (Hsm._states Demo.running)
               [] Demo.IDLE
               {| xif := 6;
                  calls := calls (Hsm.world Demo.running) ++
                           [Dispatched Demo.RUNNING Demo.stop;
                            Invoked Demo.ACTIVE Demo.onStop Demo.stop;
                            Exited Demo.RUNNING; Entered Demo.IDLE] |}).
Proof.
  refine (transition_exits_then_enters_once Demo.running Demo.stop 2
            Demo.ACTIVE (EventHandler.mk 2%Z (Some (Demo.ACTIVE, Demo.onStop)))
            Demo.ACTIVE Demo.onStop Demo.IDLE 5 None 6 0 _ _ _ _ _ _ _).
  - apply delegates_up with (p := Demo.WARMUP); [reflexivity | reflexivity |].
    apply delegates_up with (p := Demo.ACTIVE); [reflexivity | reflexivity |].
    apply delegates_here.
  - reflexivity.
  - reflexivity.
  - reflexivity.
  - discriminate.
  - reflexivity.
  - left. reflexivity.
Defined.

(** The running machine is in service, and its log keeps to the protocol. *)
Lemma running_machine_keeps_protocol :
  lifecycle None (calls (Hsm.world Demo.running)) = Some (Some Demo.RUNNING).
Proof.
  exact (entry_and_exit_alternate_on_active_state Demo.running
           demo_running_in_service).
Defined.

(** [init] called again on the running machine enters the root while the
    running state is still entered. *)
Lemma second_init_on_running_machine :
  lifecycle None (calls (Hsm.world DemoRuns.restarted)) = None /\
  exists more,
    calls (Hsm.world DemoRuns.restarted) =
    calls (Hsm.world Demo.running) ++ Entered Demo.ROOT :: more.
Proof.
  exact (second_init_enters_without_exit Demo.running 2 Demo.IDLE
           DemoRuns.restarted demo_running_in_service eq_refl).
Defined.

(** Start and stop raised together, or one after the other with a drain
    in between, end in the same configuration. *)
Lemma start_and_stop_in_one_or_two_drains :
  (exists fuel,
     Hsm.dispatchEvents fuel
       (fold_left Hsm.raiseEvent [Demo.stop]
          (fold_left Hsm.raiseEvent [Demo.start] Demo.settled)) =
     Some DemoRuns.stopped) /\
  (exists fuel1 st1 m1,
     Hsm.dispatchEvents fuel1 (fold_left Hsm.raiseEvent [Demo.start] Demo.settled) =
       Some (st1, m1) /\
     exists fuel2,
       Hsm.dispatchEvents fuel2 (fold_left Hsm.raiseEvent [Demo.stop] m1) =
       Some DemoRuns.stopped).
Proof.
  assert (H : exists fuel,
            Hsm.dispatchEvents fuel
              (fold_left Hsm.raiseEvent [Demo.stop]
                 (fold_left Hsm.raiseEvent [Demo.start] Demo.settled)) =
            Some DemoRuns.stopped)
    by (exists 5; reflexivity).
  split; [exact H |].
  apply (proj1 (drain_in_batches Demo.settled [Demo.start] [Demo.stop]
                  DemoRuns.stopped eq_refl)).
  exact H.
Defined.

End MoreRuns.
